(** * Resilient chunked uploader: client engine and server controller

    A shallow embedding of the two state machines of the repository:

    - [Client]: the [FileUploader] class of [frontend/src/utils/Uploader.js]
      (chunk plan, bounded-concurrency scheduler, retry with backoff,
      pause/resume, finalization trigger), run by an explicit event loop;
    - [Server]: the handlers of [backend/src/controllers/uploadController.js]
      ([initiateUpload], [uploadChunk], [finalizeUpload], [cleanup]) over a
      store made of the two MySQL tables and the blob directory.

    Library code which the handlers call (SHA-256 of Node's [crypto],
    [parseInt], positional [fs.write]) is modelled next to them. *)

From Stdlib Require Import ZArith QArith Qround Strings.Byte Strings.Ascii.
From stdpp Require Import gmap strings list fin_maps pretty.

#[local] Set Warnings "-register-all,-abstract-large-number".

Local Open Scope Z_scope.

(* ===================================================================== *)
(** * The client upload engine                                            *)
(* ===================================================================== *)

Module Client.

(** [const CHUNK_SIZE = 1024 * 1024 * 5], [MAX_CONCURRENCY], [MAX_RETRIES]. *)
Definition CHUNK_SIZE : Z := 1024 * 1024 * 5.
Definition MAX_CONCURRENCY : Z := 3.
Definition MAX_RETRIES : Z := 3.

(** Per-chunk status strings. *)
Module ChunkSt.
Inductive t := PENDING | UPLOADING | SUCCESS | ERROR_RETRY | ERROR_FATAL.
#[global] Instance eq_dec : EqDecision t.
Proof. solve_decision. Defined.
End ChunkSt.

(** Engine status strings ([this.status]). *)
Module St.
Inductive t := IDLE | UPLOADING | PAUSED | PROCESSING | COMPLETED | FAILED.
#[global] Instance eq_dec : EqDecision t.
Proof. solve_decision. Defined.
End St.

(** An entry of [this.chunks]: [{ index, start, end, status, attempts }]. *)
Record chunk := Chunk {
  index : nat;
  start : Z;
  end_ : Z;
  cstatus : ChunkSt.t;
  attempts : Z
}.

Definition chunk_set_status (s : ChunkSt.t) (c : chunk) : chunk :=
  Chunk (index c) (start c) (end_ c) s (attempts c).

Definition chunk_incr_attempts (c : chunk) : chunk :=
  Chunk (index c) (start c) (end_ c) (cstatus c) (attempts c + 1).

(** [Math.ceil(file.size / this.chunkSize)].  [file.size] is a
    non-negative integer and the quotient is taken exactly: below 2^53
    the rounding of the double quotient stays strictly on the same side
    of every integer (a non-integral quotient is at least 1/CHUNK_SIZE
    away from one, more than half an ulp), so [Math.ceil] of the double
    is the ceiling of the rational. *)
Definition totalChunks_of (size : Z) : Z :=
  Qceiling (inject_Z size / inject_Z CHUNK_SIZE)%Q.

(** The uploader object together with what the event loop holds for it:
    the PUT requests awaiting their outcome, the backoff timers, the
    init and finalize requests, and a clock in milliseconds.  A chunk
    object is referred to by its position in [chunks] (the array is
    built once, in index order, by [start]). *)
Record state := State {
  fileSize : Z;
  totalChunks : Z;
  uploadId : option nat;
  chunks : list chunk;
  activeUploads : Z;
  status : St.t;
  startTime : option Z;
  uploadedBytes : Z;
  (* event loop *)
  puts : list nat;            (* chunk of each PUT awaiting its outcome *)
  timers : list (nat * Z);    (* (chunk, due time) of each setTimeout *)
  initPending : nat;          (* POST /upload/init awaiting its outcome *)
  finalizePending : nat;      (* POST /finalize awaiting its outcome *)
  errors : nat;               (* calls of options.onError *)
  clock : Z;                  (* Date.now() *)
  dispatched : list (nat * Z) (* (chunk, time) of every PUT issued, oldest first *)
}.

Definition set_status (s : St.t) (w : state) : state :=
  State (fileSize w) (totalChunks w) (uploadId w) (chunks w) (activeUploads w)
        s (startTime w) (uploadedBytes w) (puts w) (timers w) (initPending w)
        (finalizePending w) (errors w) (clock w) (dispatched w).

Definition set_chunks (cs : list chunk) (w : state) : state :=
  State (fileSize w) (totalChunks w) (uploadId w) cs (activeUploads w)
        (status w) (startTime w) (uploadedBytes w) (puts w) (timers w)
        (initPending w) (finalizePending w) (errors w) (clock w) (dispatched w).

Definition set_activeUploads (n : Z) (w : state) : state :=
  State (fileSize w) (totalChunks w) (uploadId w) (chunks w) n
        (status w) (startTime w) (uploadedBytes w) (puts w) (timers w)
        (initPending w) (finalizePending w) (errors w) (clock w) (dispatched w).

Definition set_uploadedBytes (n : Z) (w : state) : state :=
  State (fileSize w) (totalChunks w) (uploadId w) (chunks w) (activeUploads w)
        (status w) (startTime w) n (puts w) (timers w)
        (initPending w) (finalizePending w) (errors w) (clock w) (dispatched w).

Definition set_puts (l : list nat) (w : state) : state :=
  State (fileSize w) (totalChunks w) (uploadId w) (chunks w) (activeUploads w)
        (status w) (startTime w) (uploadedBytes w) l (timers w)
        (initPending w) (finalizePending w) (errors w) (clock w) (dispatched w).

Definition set_timers (l : list (nat * Z)) (w : state) : state :=
  State (fileSize w) (totalChunks w) (uploadId w) (chunks w) (activeUploads w)
        (status w) (startTime w) (uploadedBytes w) (puts w) l
        (initPending w) (finalizePending w) (errors w) (clock w) (dispatched w).

Definition set_initPending (n : nat) (w : state) : state :=
  State (fileSize w) (totalChunks w) (uploadId w) (chunks w) (activeUploads w)
        (status w) (startTime w) (uploadedBytes w) (puts w) (timers w)
        n (finalizePending w) (errors w) (clock w) (dispatched w).

Definition set_finalizePending (n : nat) (w : state) : state :=
  State (fileSize w) (totalChunks w) (uploadId w) (chunks w) (activeUploads w)
        (status w) (startTime w) (uploadedBytes w) (puts w) (timers w)
        (initPending w) n (errors w) (clock w) (dispatched w).

Definition report_error (w : state) : state :=
  State (fileSize w) (totalChunks w) (uploadId w) (chunks w) (activeUploads w)
        (status w) (startTime w) (uploadedBytes w) (puts w) (timers w)
        (initPending w) (finalizePending w) (S (errors w)) (clock w) (dispatched w).

Definition set_clock (t : Z) (w : state) : state :=
  State (fileSize w) (totalChunks w) (uploadId w) (chunks w) (activeUploads w)
        (status w) (startTime w) (uploadedBytes w) (puts w) (timers w)
        (initPending w) (finalizePending w) (errors w) t (dispatched w).

Definition log_dispatch (i : nat) (w : state) : state :=
  State (fileSize w) (totalChunks w) (uploadId w) (chunks w) (activeUploads w)
        (status w) (startTime w) (uploadedBytes w) (puts w) (timers w)
        (initPending w) (finalizePending w) (errors w) (clock w)
        (dispatched w ++ [(i, clock w)]).

(** [chunk.<field> = ...] through the reference held by a closure. *)
Definition update_chunk (i : nat) (f : chunk → chunk) (w : state) : state :=
  set_chunks (alter f i (chunks w)) w.

(** [new FileUploader(file, options)]. *)
Definition new (size : Z) : state :=
  State size (totalChunks_of size) None [] 0 St.IDLE None 0 [] [] 0 0 0 0 [].

(** [_finalize]: up to the [await] of the finalize request. *)
Definition _finalize (w : state) : state :=
  set_finalizePending (S (finalizePending w)) (set_status St.PROCESSING w).

(** [_uploadChunk(chunk)]: the synchronous part, up to the [await] of
    the PUT. *)
Definition _uploadChunk (i : nat) (w : state) : state :=
  let w := set_activeUploads (activeUploads w + 1) w in
  let w := update_chunk i (chunk_set_status ChunkSt.UPLOADING) w in
  log_dispatch i (set_puts (puts w ++ [i]) w).

(** The [while] loop of [_processQueue]: [pending] is the snapshot taken
    by the filter, consumed from the front by [pending.shift()]. *)
Fixpoint fill_slots (pending : list nat) (w : state) : state :=
  match pending with
  | [] => w
  | i :: rest =>
      if activeUploads w <? MAX_CONCURRENCY
      then fill_slots rest (_uploadChunk i w)
      else w
  end.

Definition is_pending (c : chunk) : Prop :=
  cstatus c = ChunkSt.PENDING ∨ cstatus c = ChunkSt.ERROR_RETRY.

Definition is_uploading (c : chunk) : Prop :=
  cstatus c = ChunkSt.UPLOADING.

#[global] Instance is_pending_dec c : Decision (is_pending c).
Proof. unfold is_pending. apply _. Defined.

#[global] Instance is_uploading_dec c : Decision (is_uploading c).
Proof. unfold is_uploading. apply _. Defined.

Definition _processQueue (w : state) : state :=
  if decide (status w ≠ St.UPLOADING) then w
  else
    let pending := filter is_pending (chunks w) in
    let uploading := filter is_uploading (chunks w) in
    if decide (length pending = 0%nat ∧ length uploading = 0%nat)
    then _finalize w
    else fill_slots (index <$> pending) w.

(** The chunk table built by [start] after the handshake. *)
Definition make_chunk (size : Z) (uploaded : list nat) (i : nat) : chunk :=
  let start := Z.of_nat i * CHUNK_SIZE in
  let end_ := Z.min (start + CHUNK_SIZE) size in
  Chunk i start end_
        (if decide (i ∈ uploaded) then ChunkSt.SUCCESS else ChunkSt.PENDING) 0.

Definition plan (size total : Z) (uploaded : list nat) : list chunk :=
  make_chunk size uploaded <$> seq 0 (Z.to_nat total).

Definition seeded_bytes (cs : list chunk) : Z :=
  foldr (λ c acc, if decide (cstatus c = ChunkSt.SUCCESS)
                  then (end_ c - start c) + acc else acc) 0 cs.

(** What the event loop can deliver to the uploader.  The component
    [Uploader] creates one [FileUploader] per selected file and calls
    [start] on it once (the Start button is rendered only while no
    uploader exists): [EvStart] is taken from [IDLE], or from [UPLOADING]
    where [start] returns at once; restarting a used uploader, which
    would rebuild [this.chunks] under the requests in flight, is left
    out. *)
Inductive event :=
| EvStart                                     (* instance.start() *)
| EvInitOk (id : nat) (uploadedChunks : list nat)  (* init answered 2xx *)
| EvInitErr                                   (* init rejected *)
| EvPutOk (i : nat)                           (* a PUT of chunk i resolved *)
| EvPutErr (i : nat)                          (* a PUT of chunk i rejected *)
| EvTimer (i : nat)                           (* a due backoff timer of chunk i fires *)
| EvPause                                     (* uploader.pause() *)
| EvResume                                    (* uploader.resume() *)
| EvFinalizeOk                                (* finalize answered 2xx *)
| EvFinalizeErr                               (* finalize rejected *)
| EvWait (ms : Z).                            (* time passes *)

(** Removes the first occurrence of [i]; [None] when there is none. *)
Fixpoint take_put (i : nat) (l : list nat) : option (list nat) :=
  match l with
  | [] => None
  | j :: rest =>
      if decide (j = i) then Some rest
      else cons j <$> take_put i rest
  end.

(** Removes the first timer of chunk [i] that is due at time [now]. *)
Fixpoint take_timer (i : nat) (now : Z) (l : list (nat * Z))
  : option (list (nat * Z)) :=
  match l with
  | [] => None
  | (j, due) :: rest =>
      if decide (j = i ∧ due ≤ now) then Some rest
      else cons (j, due) <$> take_timer i now rest
  end.

(** The continuation of [_uploadChunk] after a resolved PUT. *)
Definition put_resolved (i : nat) (c : chunk) (w : state) : state :=
  let w := update_chunk i (chunk_set_status ChunkSt.SUCCESS) w in
  let w := set_uploadedBytes (uploadedBytes w + (end_ c - start c)) w in
  let w := set_activeUploads (activeUploads w - 1) w in
  _processQueue w.

(** The [setTimeout] callback of the retry path. *)
Definition timer_fired (i : nat) (w : state) : state :=
  if decide (status w = St.UPLOADING) then
    let w := set_activeUploads (activeUploads w - 1) w in
    let w := update_chunk i (chunk_set_status ChunkSt.PENDING) w in
    _processQueue w
  else w.

(** The [catch] branch of [_uploadChunk]; [c] is the chunk before
    [chunk.attempts++]. *)
Definition put_rejected (i : nat) (c : chunk) (w : state) : state :=
  let w := update_chunk i chunk_incr_attempts w in
  let attempts := attempts c + 1 in
  if decide (attempts ≤ MAX_RETRIES) then
    let w := update_chunk i (chunk_set_status ChunkSt.ERROR_RETRY) w in
    let delay := 2 ^ attempts * 1000 in
    let w := set_timers (timers w ++ [(i, clock w + delay)]) w in
    let w := set_activeUploads (activeUploads w - 1) w in
    _processQueue w
  else
    let w := update_chunk i (chunk_set_status ChunkSt.ERROR_FATAL) w in
    let w := set_status St.FAILED w in
    let w := set_activeUploads (activeUploads w - 1) w in
    report_error w.

(** One turn of the event loop; [None] when the event cannot occur in
    [w] (no such request or due timer). *)
Definition step (e : event) (w : state) : option state :=
  match e with
  | EvStart =>
      if decide (status w = St.UPLOADING) then Some w
      else if decide (status w = St.IDLE) then
        let w := set_status St.UPLOADING w in
        let w := State (fileSize w) (totalChunks w) (uploadId w) (chunks w)
                       (activeUploads w) (status w) (Some (clock w))
                       (uploadedBytes w) (puts w) (timers w)
                       (initPending w) (finalizePending w) (errors w)
                       (clock w) (dispatched w) in
        Some (set_initPending (S (initPending w)) w)
      else None
  | EvInitOk id uploaded =>
      match initPending w with
      | O => None
      | S n =>
          let w := set_initPending n w in
          let cs := plan (fileSize w) (totalChunks w) uploaded in
          let w := State (fileSize w) (totalChunks w) (Some id) cs
                         (activeUploads w) (status w) (startTime w)
                         (uploadedBytes w + seeded_bytes cs) (puts w)
                         (timers w) (initPending w) (finalizePending w)
                         (errors w) (clock w) (dispatched w) in
          Some (_processQueue w)
      end
  | EvInitErr =>
      match initPending w with
      | O => None
      | S n => Some (report_error (set_status St.FAILED (set_initPending n w)))
      end
  | EvPutOk i =>
      rest ← take_put i (puts w);
      c ← chunks w !! i;
      Some (put_resolved i c (set_puts rest w))
  | EvPutErr i =>
      rest ← take_put i (puts w);
      c ← chunks w !! i;
      Some (put_rejected i c (set_puts rest w))
  | EvTimer i =>
      rest ← take_timer i (clock w) (timers w);
      Some (timer_fired i (set_timers rest w))
  | EvPause => Some (set_status St.PAUSED w)
  | EvResume =>
      if decide (status w = St.PAUSED ∨ status w = St.FAILED)
      then Some (_processQueue (set_status St.UPLOADING w))
      else Some w
  | EvFinalizeOk =>
      match finalizePending w with
      | O => None
      | S n => Some (set_status St.COMPLETED (set_finalizePending n w))
      end
  | EvFinalizeErr =>
      match finalizePending w with
      | O => None
      | S n => Some (report_error (set_status St.FAILED (set_finalizePending n w)))
      end
  | EvWait ms =>
      if decide (0 ≤ ms) then Some (set_clock (clock w + ms) w) else None
  end.

(** A run of the event loop. *)
Fixpoint run (es : list event) (w : state) : option state :=
  match es with
  | [] => Some w
  | e :: rest => w' ← step e w; run rest w'
  end.

(** Requests in flight, and chunks whose status is [UPLOADING]. *)
Definition in_flight (w : state) : nat := length (puts w).

Definition uploading_count (w : state) : nat :=
  length (filter is_uploading (chunks w)).



End Client.

(* ===================================================================== *)
(** * SHA-256 (FIPS 180-4), as computed by [crypto.createHash('sha256')]  *)
(* ===================================================================== *)

Module Sha256.

(** 32-bit words are integers in [0, 2^32); every operation that can
    leave the range is reduced explicitly. *)
Definition wrap (x : Z) : Z := x mod 2 ^ 32.
Definition add32 (x y : Z) : Z := wrap (x + y).
Definition rotr (n x : Z) : Z :=
  Z.lor (Z.shiftr x n) (wrap (Z.shiftl x (32 - n))).
Definition not32 (x : Z) : Z := Z.lxor x (2 ^ 32 - 1).

Definition Ch (x y z : Z) : Z := Z.lxor (Z.land x y) (Z.land (not32 x) z).
Definition Maj (x y z : Z) : Z :=
  Z.lxor (Z.lxor (Z.land x y) (Z.land x z)) (Z.land y z).
Definition Sum0 (x : Z) : Z := Z.lxor (Z.lxor (rotr 2 x) (rotr 13 x)) (rotr 22 x).
Definition Sum1 (x : Z) : Z := Z.lxor (Z.lxor (rotr 6 x) (rotr 11 x)) (rotr 25 x).
Definition sig0 (x : Z) : Z := Z.lxor (Z.lxor (rotr 7 x) (rotr 18 x)) (Z.shiftr x 3).
Definition sig1 (x : Z) : Z := Z.lxor (Z.lxor (rotr 17 x) (rotr 19 x)) (Z.shiftr x 10).

(** The round constants are the first 32 fractional bits of the cube
    roots of the first 64 primes, the initial state those of the square
    roots of the first 8; both tables are computed from that definition. *)
Definition is_prime (n : Z) : bool :=
  forallb (λ d, negb (n mod d =? 0)) (seqZ 2 (n - 2)).

Definition primes64 : list Z :=
  Eval vm_compute in List.filter is_prime (seqZ 2 310).

(** Largest [r < 2^36] with [r^3 <= n], one bit at a time. *)
Definition icbrt (n : Z) : Z :=
  fold_left (λ r b, let r' := r + 2 ^ b in if r' ^ 3 <=? n then r' else r)
            (rev (seqZ 0 36)) 0.

Definition K : list Z :=
  Eval vm_compute in (λ p, wrap (icbrt (p * 2 ^ 96))) <$> primes64.

Definition H0 : list Z :=
  Eval vm_compute in (λ p, wrap (Z.sqrt (p * 2 ^ 64))) <$> take 8 primes64.

Definition byteZ (b : byte) : Z := Z.of_N (Byte.to_N b).

Definition Zbyte (z : Z) : byte :=
  match Byte.of_N (Z.to_N (z mod 256)) with Some b => b | None => Byte.x00 end.

(** The [n] low bytes of [v], most significant first. *)
Fixpoint be_bytes (n : nat) (v : Z) : list byte :=
  match n with
  | O => []
  | S m => Zbyte (Z.shiftr v (8 * Z.of_nat m)) :: be_bytes m v
  end.

(** Padding: a 1 bit, zeros up to 56 mod 64 bytes, the bit length on 8 bytes. *)
Definition pad (msg : list byte) : list byte :=
  let l := Z.of_nat (length msg) in
  msg ++ [Byte.x80] ++ replicate (Z.to_nat ((55 - l) mod 64)) Byte.x00
      ++ be_bytes 8 (8 * l).

(** Big-endian 32-bit words of a byte string (a trailing partial word is
    dropped; padded messages have none). *)
Fixpoint words (bs : list byte) : list Z :=
  match bs with
  | a :: b :: c :: d :: rest =>
      (((byteZ a * 256 + byteZ b) * 256 + byteZ c) * 256 + byteZ d) :: words rest
  | _ => []
  end.

(** The message schedule, newest word first: [sched] holds
    [W(t-1), W(t-2), ...], and each step adds [W(t)]. *)
Definition next_W (sched : list Z) : Z :=
  add32 (add32 (add32 (sig1 (nth 1 sched 0)) (nth 6 sched 0))
               (sig0 (nth 14 sched 0)))
        (nth 15 sched 0).

Definition schedule (block : list Z) : list Z :=
  rev (Nat.iter 48 (λ sched, next_W sched :: sched) (rev block)).

Definition state : Type := Z * Z * Z * Z * Z * Z * Z * Z.

Definition round (s : state) (kw : Z * Z) : state :=
  let '(a, b, c, d, e, f, g, h) := s in
  let t1 := add32 (add32 (add32 (add32 h (Sum1 e)) (Ch e f g)) kw.1) kw.2 in
  let t2 := add32 (Sum0 a) (Maj a b c) in
  (add32 t1 t2, a, b, c, add32 d t1, e, f, g).

Definition compress (s : state) (block : list Z) : state :=
  let '(a, b, c, d, e, f, g, h) := s in
  let '(a', b', c', d', e', f', g', h') :=
    fold_left round (zip K (schedule block)) s in
  (add32 a a', add32 b b', add32 c c', add32 d d',
   add32 e e', add32 f f', add32 g g', add32 h h').

Definition init : state :=
  (nth 0 H0 0, nth 1 H0 0, nth 2 H0 0, nth 3 H0 0,
   nth 4 H0 0, nth 5 H0 0, nth 6 H0 0, nth 7 H0 0).

(** Cuts a word list into [n] blocks of 16 words. *)
Fixpoint blocks (n : nat) (ws : list Z) : list (list Z) :=
  match n with
  | O => []
  | S m => take 16 ws :: blocks m (drop 16 ws)
  end.

Definition state_bytes (s : state) : list byte :=
  let '(a, b, c, d, e, f, g, h) := s in
  be_bytes 4 a ++ be_bytes 4 b ++ be_bytes 4 c ++ be_bytes 4 d ++
  be_bytes 4 e ++ be_bytes 4 f ++ be_bytes 4 g ++ be_bytes 4 h.

(** The 32-byte digest of a message. *)
Definition sha256 (msg : list byte) : list byte :=
  let ws := words (pad msg) in
  state_bytes (fold_left compress (blocks (length ws / 16) ws) init).

(** [digest('hex')]: two lowercase hexadecimal digits per byte. *)
Definition hex_digit (n : Z) : ascii :=
  if n <? 10 then ascii_of_nat (Z.to_nat (48 + n))
  else ascii_of_nat (Z.to_nat (87 + n)).

Fixpoint hex (bs : list byte) : string :=
  match bs with
  | [] => EmptyString
  | b :: rest =>
      String (hex_digit (byteZ b / 16)) (String (hex_digit (byteZ b mod 16)) (hex rest))
  end.



Fixpoint bytes_of_string (s : string) : list byte :=
  match s with
  | EmptyString => []
  | String a rest => byte_of_ascii a :: bytes_of_string rest
  end.

End Sha256.

(* ===================================================================== *)
(** * The server: chunk assembler, finalizer and cleanup                  *)
(* ===================================================================== *)

Module Server.

(** ** JSON values, as parsed by [express.json()] and sent by [res.json]

    Numbers are integers: the handlers send no other, and of a number
    received only its truthiness is used. *)

Inductive json :=
| JNull
| JBool (b : bool)
| JNum (n : Z)
| JStr (s : string)
| JArr (items : list json)
| JObj (fields : list (string * json)).

(** Property lookup on a JSON object; [None] is [undefined]. *)
Fixpoint field_lookup (k : string) (fields : list (string * json)) : option json :=
  match fields with
  | [] => None
  | (k', v) :: rest => if String.eqb k k' then Some v else field_lookup k rest
  end.

Definition get_field (k : string) (v : json) : option json :=
  match v with
  | JObj fields => field_lookup k fields
  | _ => None
  end.

(** JavaScript truthiness of a property value ([None] is [undefined]). *)
Definition truthy (v : option json) : bool :=
  match v with
  | None | Some JNull => false
  | Some (JBool b) => b
  | Some (JNum n) => negb (n =? 0)
  | Some (JStr s) => negb (String.eqb s EmptyString)
  | Some (JArr _) | Some (JObj _) => true
  end.

(** [v !== str] for a string [str]. *)
Definition strict_differs (v : option json) (str : string) : bool :=
  match v with
  | Some (JStr s) => negb (String.eqb s str)
  | _ => true
  end.

(** A response: the status code and the JSON body ([res.json] alone
    answers 200). *)
Record response := Response { code : Z; body : json }.

Definition error_body (msg : string) : json := JObj [("error", JStr msg)].

Definition success_body : json := JObj [("success", JBool true)].

Definition already_completed_body : json :=
  JObj [("status", JStr "COMPLETED"); ("message", JStr "Already completed")].

Definition mismatch_body (serverHash : string) (clientHash : option json) : json :=
  JObj [("error", JStr "Hash mismatch"); ("serverHash", JStr serverHash);
        ("clientHash", default JNull clientHash)].

(** ** [parseInt] on a header value *)

(** White space skipped by [parseInt]; header values are Latin-1, where
    the JavaScript white space characters are these seven. *)
Definition is_space (a : ascii) : bool :=
  let n := nat_of_ascii a in
  bool_decide (n = 9 ∨ n = 10 ∨ n = 11 ∨ n = 12 ∨ n = 13 ∨ n = 32 ∨ n = 160)%nat.

Fixpoint skip_spaces (s : string) : string :=
  match s with
  | String a rest => if is_space a then skip_spaces rest else s
  | EmptyString => s
  end.

(** Value of a digit in the given radix. *)
Definition digit_value (radix : Z) (a : ascii) : option Z :=
  let n := Z.of_nat (nat_of_ascii a) in
  let v := if (48 <=? n) && (n <=? 57) then Some (n - 48)
           else if (97 <=? n) && (n <=? 122) then Some (n - 87)
           else if (65 <=? n) && (n <=? 90) then Some (n - 55)
           else None in
  match v with
  | Some d => if d <? radix then Some d else None
  | None => None
  end.

(** The longest prefix of digits; [acc] is [None] until a digit is seen. *)
Fixpoint parse_digits (radix : Z) (s : string) (acc : option Z) : option Z :=
  match s with
  | EmptyString => acc
  | String a rest =>
      match digit_value radix a with
      | Some d => parse_digits radix rest (Some (default 0 acc * radix + d))
      | None => acc
      end
  end.

(** [parseInt(s)] without a radix; [None] is [NaN].  The result is the
    exact integer (a double holds it exactly below 2^53). *)
Definition parseInt (s : string) : option Z :=
  let s := skip_spaces s in
  let '(sign, s) :=
    match s with
    | String "-" rest => (-1, rest)
    | String "+" rest => (1, rest)
    | _ => (1, s)
    end in
  let '(radix, s) :=
    match s with
    | String "0" (String "x" rest) | String "0" (String "X" rest) => (16, rest)
    | _ => (10, s)
    end in
  Z.mul sign <$> parse_digits radix s None.

(** [parseInt(req.headers['x-chunk-offset'])]: a missing header is
    [undefined], which [parseInt] reads as the string "undefined". *)
Definition parse_offset (header : option string) : option Z :=
  parseInt (default "undefined" header).

(** ** The store: two tables and the blob directory *)

Module Status.
Inductive t := UPLOADING | PROCESSING | COMPLETED | FAILED.
#[global] Instance eq_dec : EqDecision t.
Proof. solve_decision. Defined.
End Status.

(** A row of [uploads]; the key [id] is the map key. *)
Record upload := Upload {
  filename : string;
  total_size : Z;
  total_chunks : Z;
  ustatus : Status.t;
  final_hash : option string;
  created_at : Z
}.

(** A row of [chunks]; the primary key [(upload_id, chunk_index)] is the
    map key.  The only status written is "UPLOADED". *)
Inductive chunk_status := UPLOADED.

Record chunk_row := ChunkRow {
  cstatus : chunk_status;
  received_at : Z
}.

(** [next_id] is the AUTO_INCREMENT counter of [uploads]; [blobs] maps an
    upload id to the content of [uploads/<id>.bin] when that file exists.
    Route parameters are taken in canonical form: an upload id is the
    number [init] returned, a chunk index an integer. *)
Record store := Store {
  uploads : gmap nat upload;
  next_id : nat;
  chunks : gmap (nat * Z) chunk_row;
  blobs : gmap nat (list byte)
}.

Definition empty_store : store := Store ∅ 1 ∅ ∅.

Definition with_status (st : Status.t) (u : upload) : upload :=
  Upload (filename u) (total_size u) (total_chunks u) st (final_hash u)
         (created_at u).

Definition with_completed (h : string) (u : upload) : upload :=
  Upload (filename u) (total_size u) (total_chunks u) Status.COMPLETED (Some h)
         (created_at u).

(** [UPDATE uploads SET status = ? WHERE id = ?]. *)
Definition update_status (id : nat) (st : Status.t) (s : store) : store :=
  Store (alter (with_status st) id (uploads s)) (next_id s) (chunks s) (blobs s).

(** [UPDATE uploads SET status = "COMPLETED", final_hash = ? WHERE id = ?]. *)
Definition update_completed (id : nat) (h : string) (s : store) : store :=
  Store (alter (with_completed h) id (uploads s)) (next_id s) (chunks s) (blobs s).

Definition set_blobs (b : gmap nat (list byte)) (s : store) : store :=
  Store (uploads s) (next_id s) (chunks s) b.

Definition set_chunks (c : gmap (nat * Z) chunk_row) (s : store) : store :=
  Store (uploads s) (next_id s) c (blobs s).

(** [fs.ensureFile]: creates an empty file unless the file exists. *)
Definition ensureFile (id : nat) (s : store) : store :=
  match blobs s !! id with
  | Some _ => s
  | None => set_blobs (<[id := []]> (blobs s)) s
  end.

(** [fs.write(fd, data, 0, data.length, position)] on a descriptor just
    opened with 'r+': the bytes go to [position], a hole before them
    reads as zeros, the file is never truncated.  Writing no bytes
    leaves the file as it is.  Node takes a negative position as "the
    current position", which is 0 for a fresh descriptor: [Z.to_nat]
    sends it there. *)
Definition write_at (blob : list byte) (position : Z) (data : list byte)
  : list byte :=
  match data with
  | [] => blob
  | _ =>
      let pos := Z.to_nat position in
      take pos blob ++ replicate (pos - length blob) Byte.x00 ++ data
        ++ drop (pos + length data) blob
  end.

(** ** [initiateUpload] *)

(** The least id among the rows of
    [SELECT * FROM uploads WHERE filename = ? AND total_size = ?
     AND status != "COMPLETED" AND status != "FAILED"] (rows come in
    primary-key order and the handler takes [rows[0]]). *)
Definition resumable (name : string) (size : Z) (u : upload) : Prop :=
  filename u = name ∧ total_size u = size
  ∧ ustatus u ≠ Status.COMPLETED ∧ ustatus u ≠ Status.FAILED.

#[global] Instance resumable_dec name size u : Decision (resumable name size u).
Proof. unfold resumable. apply _. Defined.

Definition least (ids : list nat) : option nat :=
  foldr (λ i acc, Some (match acc with Some j => Nat.min i j | None => i end))
        None ids.

Definition find_resumable (name : string) (size : Z) (s : store) : option nat :=
  least ((map_to_list (filter (λ kv, resumable name size kv.2) (uploads s))).*1).

(** [SELECT chunk_index FROM chunks WHERE upload_id = ? AND status = "UPLOADED"]. *)
Definition uploaded_indices (id : nat) (s : store) : list Z :=
  (λ kv : nat * Z * chunk_row, kv.1.2)
    <$> map_to_list (filter (λ kv, kv.1.1 = id) (chunks s)).

(** [DELETE FROM chunks WHERE upload_id = ?]. *)
Definition delete_chunks (id : nat) (s : store) : store :=
  set_chunks (filter (λ kv, kv.1.1 ≠ id) (chunks s)) s.

Definition init_body (id : nat) (uploadedChunks : list Z) : json :=
  JObj [("uploadId", JNum (Z.of_nat id)); ("status", JStr "UPLOADING");
        ("uploadedChunks", JArr (JNum <$> uploadedChunks))].

Definition initiateUpload (name : string) (totalSize totalChunks now : Z)
    (s : store) : store * response :=
  match find_resumable name totalSize s with
  | Some id =>
      let uploadedChunks := uploaded_indices id s in
      match blobs s !! id with
      | Some _ => (s, Response 200 (init_body id uploadedChunks))
      | None =>
          (ensureFile id (delete_chunks id s), Response 200 (init_body id []))
      end
  | None =>
      let id := next_id s in
      let row := Upload name totalSize totalChunks Status.UPLOADING None now in
      let s := Store (<[id := row]> (uploads s)) (S id) (chunks s) (blobs s) in
      (ensureFile id s, Response 200 (init_body id []))
  end.

(** ** [uploadChunk] *)

(** What the file system and the database do during one PUT: nothing
    fails, [fs.write] throws, or the upsert throws. *)
Inductive put_io := IoOk | FsWriteFails | DbFails.

(** [INSERT INTO chunks ... ON DUPLICATE KEY UPDATE status="UPLOADED",
    received_at=CURRENT_TIMESTAMP]. *)
Definition upsert_chunk (id : nat) (idx : Z) (now : Z) (s : store) : store :=
  set_chunks (<[(id, idx) := ChunkRow UPLOADED now]> (chunks s)) s.

Definition uploadChunk (uploadId : nat) (chunkIndex : Z)
    (offsetHeader : option string) (chunkData : list byte)
    (io : put_io) (now : Z) (s : store) : store * response :=
  match parse_offset offsetHeader with
  | None => (s, Response 400 (error_body "Missing X-Chunk-Offset header"))
  | Some offset =>
      let s := ensureFile uploadId s in
      match io with
      | FsWriteFails => (s, Response 500 (error_body "Write failed"))
      | _ =>
          let blob := default [] (blobs s !! uploadId) in
          let s := set_blobs (<[uploadId := write_at blob offset chunkData]> (blobs s)) s in
          match io with
          | DbFails => (s, Response 500 (error_body "Write failed"))
          | _ =>
              (upsert_chunk uploadId chunkIndex now s,
               Response 200 success_body)
          end
      end
  end.

(** ** [finalizeUpload] *)

(** [fs.createReadStream] delivers the file in buffers of at most
    [highWaterMark] bytes. *)
Definition highWaterMark : nat := 65536.

Fixpoint read_chunks (size fuel : nat) (file : list byte) : list (list byte) :=
  match fuel, file with
  | O, _ | _, [] => []
  | S fuel', _ => take size file :: read_chunks size fuel' (drop size file)
  end.

(** The 'data' events of the stream, in order; at most [length file]
    buffers are needed. *)
Definition createReadStream (file : list byte) : list (list byte) :=
  read_chunks highWaterMark (length file) file.

(** The hash object: [update] feeds bytes, [digest('hex')] is the
    SHA-256 of all bytes fed, in lowercase hexadecimal. *)
Definition createHash : list byte := [].
Definition hash_update (h data : list byte) : list byte := h ++ data.
Definition digest_hex (h : list byte) : string := Sha256.hex (Sha256.sha256 h).

(** What [yauzl] reports on the blob. *)
Inductive zip_outcome :=
| ZipOpenError                       (* yauzl.open calls back with err *)
| ZipEnd (entries : list string)     (* every entry read, then 'end' *)
| ZipError.                          (* 'error' while reading entries *)

(** The environment of one finalize request. *)
Record fin_env := FinEnv {
  read_error : bool;     (* the read stream emits 'error' *)
  zip : zip_outcome
}.

Definition completed_body (uploadId : nat) (finalHash : string)
    (entries : list string) : json :=
  JObj [("status", JStr "COMPLETED"); ("uploadId", JNum (Z.of_nat uploadId));
        ("hash", JStr finalHash); ("zipContent", JArr (JStr <$> entries))].

(** The status check and lock at the head of the handler: an early
    response, or the store with the row set to PROCESSING. *)
Definition finalize_guard (uploadId : nat) (s : store) : store * option response :=
  match uploads s !! uploadId with
  | None => (s, Some (Response 404 (error_body "Upload not found")))
  | Some upload =>
      if decide (ustatus upload = Status.COMPLETED) then
        (s, Some (Response 200 already_completed_body))
      else if decide (ustatus upload = Status.PROCESSING) then
        (s, Some (Response 409 (error_body "Already processing")))
      else (update_status uploadId Status.PROCESSING s, None)
  end.

(** [finish(finalHash, entries)]. *)
Definition finish (uploadId : nat) (finalHash : string) (entries : list string)
    (s : store) : store * response :=
  (update_completed uploadId finalHash s,
   Response 200 (completed_body uploadId finalHash entries)).

(** The hash of the streamed blob. *)
Definition server_hash (file : list byte) : string :=
  digest_hex (fold_left hash_update (createReadStream file) createHash).

(** The stream handlers: 'error', or 'data'... 'end'. *)
Definition finalize_stream (uploadId : nat) (clientHash : option json)
    (env : fin_env) (s : store) : store * response :=
  match blobs s !! uploadId with
  | Some file =>
      if read_error env then
        (update_status uploadId Status.FAILED s,
         Response 500 (error_body "File read error during hashing"))
      else
        let serverHash := server_hash file in
        if truthy clientHash && strict_differs clientHash serverHash then
          (update_status uploadId Status.FAILED s,
           Response 400 (mismatch_body serverHash clientHash))
        else
          match zip env with
          | ZipOpenError => finish uploadId serverHash ["(Not a valid ZIP archive)"] s
          | ZipEnd entries => finish uploadId serverHash entries s
          | ZipError => finish uploadId serverHash ["(Error reading ZIP structure)"] s
          end
  | None =>
      (* no such file: the stream emits 'error' *)
      (update_status uploadId Status.FAILED s,
       Response 500 (error_body "File read error during hashing"))
  end.

Definition finalizeUpload (uploadId : nat) (clientHash : option json)
    (env : fin_env) (s : store) : store * response :=
  match finalize_guard uploadId s with
  | (s, Some r) => (s, r)
  | (s, None) => finalize_stream uploadId clientHash env s
  end.

(** ** [cleanup] *)

(** [status = "UPLOADING" AND created_at < NOW() - INTERVAL 1 DAY], with
    times in seconds. *)
Definition stale (now : Z) (u : upload) : Prop :=
  ustatus u = Status.UPLOADING ∧ created_at u < now - 86400.

#[global] Instance stale_dec now u : Decision (stale now u).
Proof. unfold stale. apply _. Defined.

Definition cleanup (now : Z) (s : store) : store * response :=
  let rows := (map_to_list (filter (λ kv, stale now kv.2) (uploads s))).*1 in
  let s := foldl (λ s id,
                    update_status id Status.FAILED
                      (set_blobs (delete id (blobs s)) s)) s rows in
  (s, Response 200 (JObj [("cleaned", JNum (Z.of_nat (length rows)))])).

(** ** Requests, for sequences of operations *)

Inductive request :=
| Init (name : string) (totalSize totalChunks : Z)
| Put (uploadId : nat) (chunkIndex : Z) (offsetHeader : option string)
      (chunkData : list byte) (io : put_io)
| Finalize (uploadId : nat) (clientHash : option json) (env : fin_env)
| Cleanup.

(** Handles one request at time [now]. *)
Definition handle (now : Z) (r : request) (s : store) : store * response :=
  match r with
  | Init name size total => initiateUpload name size total now s
  | Put id idx h data io => uploadChunk id idx h data io now s
  | Finalize id ch env => finalizeUpload id ch env s
  | Cleanup => cleanup now s
  end.

(** Handles the requests in order, each to completion, and returns the
    responses in order. *)
Fixpoint serve (now : Z) (rs : list request) (s : store)
  : store * list response :=
  match rs with
  | [] => (s, [])
  | r :: rest =>
      let '(s1, resp) := handle now r s in
      let '(s2, resps) := serve now rest s1 in
      (s2, resp :: resps)
  end.

Definition status_of (id : nat) (s : store) : option Status.t :=
  ustatus <$> uploads s !! id.

End Server.

(* ===================================================================== *)
(** * Concrete runs used below                                            *)
(* ===================================================================== *)

Module Scenarios.
Import Client.

Import Server.

(** A file of exactly five chunks. *)
Definition five_chunks : Z := 5 * CHUNK_SIZE.

(** Chunks 0, 1, 2 are sent; the PUT of chunk 0 is rejected. *)
Definition first_failure : list event :=
  [EvStart; EvInitOk 1 []; EvPutErr 0].

(** ... then a PUT of chunk 0 resolves while chunks 1 and 2 are still on
    the wire, and two seconds after the failure the backoff timer of
    chunk 0 fires. *)
Definition late_timer : list event :=
  first_failure ++ [EvPutOk 0; EvWait 2000; EvTimer 0].

(** Server side: a finalize environment where the blob streams without
    error and is not a ZIP archive, and a four-byte chunk. *)
Definition plain_file : fin_env := FinEnv false ZipOpenError.

Definition AAAA : list byte := Sha256.bytes_of_string "AAAA".

(** SHA-256 of "AAAA". *)
Definition AAAA_hash : string :=
  "63c1dd951ffedf6f7fd968ad4efa39b8ed584f162f46e715114ee184f8de9201".

Definition zeros64 : string :=
  "0000000000000000000000000000000000000000000000000000000000000000".

(** An upload of 16 bytes, initiated, no chunk received yet. *)
Definition initiated : store :=
  (initiateUpload "f.bin" 16 1 0 empty_store).1.

(** A one-chunk upload, initiated and with its chunk received. *)
Definition uploaded : store :=
  (serve 0 [Init "f.bin" 4 1; Put 1 0 (Some "0") AAAA IoOk] empty_store).1.

(** The same upload after a finalize with a wrong client hash. *)
Definition mismatched : store :=
  (finalizeUpload 1 (Some (JStr zeros64)) plain_file uploaded).1.

(** The same upload after a finalize without client hash. *)
Definition completed : store :=
  (finalizeUpload 1 None plain_file uploaded).1.


End Scenarios.

(* ===================================================================== *)
(** * What the client puts on the wire                                    *)
(* ===================================================================== *)

Module Wire.

(** [String(n)] for a non-negative integer (below 1e21 JavaScript prints
    all the digits): how [chunk.start] reaches the [X-Chunk-Offset]
    header and [chunk.index] the URL. *)
Definition decimal (n : Z) : string := pretty (Z.to_N n).

(** [file.slice(start, end)] for [0 <= start]: the bytes at
    [start, end), cut at the end of the file; empty when [end <= start]. *)
Definition slice (file : list byte) (start end_ : Z) : list byte :=
  take (Z.to_nat (end_ - start)) (drop (Z.to_nat start) file).

(** The PUT that [_uploadChunk] issues for a chunk of [file], when
    nothing fails on the server. *)
Definition put_of (uploadId : nat) (file : list byte) (c : Client.chunk)
  : Server.request :=
  Server.Put uploadId (Z.of_nat (Client.index c))
             (Some (decimal (Client.start c)))
             (slice file (Client.start c) (Client.end_ c)) Server.IoOk.

(** The blob after the positional writes of the given chunks, in order. *)
Definition assemble (file : list byte) (blob : list byte)
    (cs : list Client.chunk) : list byte :=
  foldl (λ b c, Server.write_at b (Client.start c)
                  (slice file (Client.start c) (Client.end_ c))) blob cs.

(** A chunk whose range lies within the file. *)
Definition in_file (file : list byte) (c : Client.chunk) : Prop :=
  0 ≤ Client.start c ∧ Client.start c ≤ Client.end_ c
  ∧ Client.end_ c ≤ Z.of_nat (length file).

(** The Chunk rows after the upserts of the given chunks, in order. *)
Definition record_chunks (id : nat) (now : Z)
    (m : gmap (nat * Z) Server.chunk_row) (cs : list Client.chunk)
  : gmap (nat * Z) Server.chunk_row :=
  foldl (λ m c, <[(id, Z.of_nat (Client.index c))
                    := Server.ChunkRow Server.UPLOADED now]> m) m cs.

(** The bytes the plan covers: the sum of [end - start]. *)
Definition planned_bytes (cs : list Client.chunk) : Z :=
  foldr (λ c acc, (Client.end_ c - Client.start c) + acc) 0 cs.

End Wire.

(* ===================================================================== *)
(** * Histories of requests, and what they keep                           *)
(* ===================================================================== *)

Module History.
Import Server.

(** The store after a history of requests, each handled to completion at
    its own time. *)
Definition replay (h : list (Z * request)) (s : store) : store :=
  foldl (λ s tr, (handle tr.1 tr.2 s).1) s h.

(** Every upload id in use is below the AUTO_INCREMENT counter. *)
Definition fresh_ids (s : store) : Prop :=
  ∀ id, is_Some (uploads s !! id) → (id < next_id s)%nat.

(** A row holds a final hash exactly when it is COMPLETED. *)
Definition hash_iff_completed (s : store) : Prop :=
  ∀ id u, uploads s !! id = Some u →
          (is_Some (final_hash u) ↔ ustatus u = Status.COMPLETED).

(** The upload that [initiateUpload] answers with: the resumable row of
    least id, or else the row it inserts. *)
Definition target_id (name : string) (size : Z) (s : store) : nat :=
  default (next_id s) (find_resumable name size s).

Definition is_put (r : request) : Prop :=
  match r with Put _ _ _ _ _ => True | _ => False end.

(** A PUT of chunk [k] of upload [id] that is answered 200. *)
Definition accepted (id : nat) (k : Z) (r : request) : Prop :=
  match r with
  | Put id' k' header _ IoOk =>
      id' = id ∧ k' = k ∧ is_Some (parse_offset header)
  | _ => False
  end.

End History.

(* ===================================================================== *)
(** * The client's bookkeeping                                            *)
(* ===================================================================== *)

Module Ledger.
Import Client.

Definition is_start_or_resume (e : event) : bool :=
  match e with EvStart | EvResume => true | _ => false end.

(** The chunk table after [chunk.status = 'UPLOADING'] on each chunk
    sent. *)
Definition mark_uploading (cs : list chunk) (sent : list nat) : list chunk :=
  foldl (λ cs i, alter (chunk_set_status ChunkSt.UPLOADING) i cs) cs sent.





End Ledger.

(* ===================================================================== *)
(** * More concrete runs                                                  *)
(* ===================================================================== *)

Module Cases.
Import Server.

(** The one-chunk upload of [Scenarios.uploaded] whose blob has been
    removed from the disk. *)
Definition blob_lost : store := set_blobs ∅ Scenarios.uploaded.

(** Init, PUT, finalize of a four-byte file; then a cleanup and a
    finalize with a wrong hash. *)
Definition complete_upload : list (Z * request) :=
  [(0, Init "f.bin" 4 1); (0, Put 1 0 (Some "0") Scenarios.AAAA IoOk);
   (0, Finalize 1 None Scenarios.plain_file)].

Definition late_requests : list (Z * request) :=
  [(100000, Cleanup);
   (100001, Finalize 1 (Some (JStr Scenarios.zeros64)) Scenarios.plain_file)].

(** Client: the handshake answered, then [pause()]. *)
Definition paused : Client.state :=
  default (Client.new 0)
    (Client.run [Client.EvStart; Client.EvInitOk 1 []; Client.EvPause]
       (Client.new Scenarios.five_chunks)).

Definition two_done : list Client.event :=
  [Client.EvPutOk 0; Client.EvPutOk 1].

Definition paused_two_done : Client.state :=
  default (Client.new 0) (Client.run two_done paused).



(** Client: chunks 0, 1, 2 on the wire. *)
Definition three_sent : Client.state :=
  default (Client.new 0)
    (Client.run [Client.EvStart; Client.EvInitOk 1 []]
       (Client.new Scenarios.five_chunks)).

End Cases.

(* ===================================================================== *)
(** * Facts about the client engine                                       *)
(* ===================================================================== *)

Module ClientFacts.
Import Client.

(** The ceiling of the quotient, in integer arithmetic. *)
Lemma totalChunks_of_div (size : Z) :
  totalChunks_of size = - ((- size) / CHUNK_SIZE).
Proof.
  unfold totalChunks_of, Qceiling, Qfloor, Qdiv, Qmult, Qinv, Qopp, inject_Z.
  simpl. f_equal. f_equal. lia.
Qed.

Lemma totalChunks_of_bounds (size : Z) :
  CHUNK_SIZE * (totalChunks_of size - 1) < size ≤ CHUNK_SIZE * totalChunks_of size.
Proof.
  rewrite totalChunks_of_div.
  assert (Hc : 0 < CHUNK_SIZE) by (unfold CHUNK_SIZE; lia).
  pose proof (Z.div_mod (- size) CHUNK_SIZE ltac:(lia)) as Hdm.
  pose proof (Z.mod_pos_bound (- size) CHUNK_SIZE Hc) as Hm.
  lia.
Qed.

Lemma fill_slots_length pending w :
  length (chunks (fill_slots pending w)) = length (chunks w).
Proof.
  revert w. induction pending as [|i rest IH]; intros w; simpl; [done|].
  destruct (activeUploads w <? MAX_CONCURRENCY); [|done].
  rewrite IH. simpl. by rewrite length_alter.
Qed.

Lemma processQueue_length w :
  length (chunks (_processQueue w)) = length (chunks w).
Proof.
  unfold _processQueue.
  destruct (decide (status w ≠ St.UPLOADING)); [done|].
  case_decide; [done|]. apply fill_slots_length.
Qed.

Lemma fill_slots_totalChunks pending w :
  totalChunks (fill_slots pending w) = totalChunks w.
Proof.
  revert w. induction pending as [|i rest IH]; intros w; simpl; [done|].
  destruct (activeUploads w <? MAX_CONCURRENCY); [|done].
  by rewrite IH.
Qed.

Lemma processQueue_totalChunks w :
  totalChunks (_processQueue w) = totalChunks w.
Proof.
  unfold _processQueue.
  destruct (decide (status w ≠ St.UPLOADING)); [done|].
  case_decide; [done|]. apply fill_slots_totalChunks.
Qed.

Lemma plan_length size total uploaded :
  length (plan size total uploaded) = Z.to_nat total.
Proof. unfold plan. by rewrite length_fmap, length_seq. Qed.

(** C7, as the code has it: [totalChunks] is the ceiling of
    [file.size / CHUNK_SIZE] - the least [n] with [size <= n * CHUNK_SIZE] -
    and [start] plans exactly that many chunks; it is non-negative, and
    at least 1 exactly when the file is not empty. *)
Theorem totalChunks_is_ceiling (size : Z) :
  0 ≤ size →
  let n := totalChunks (new size) in
  CHUNK_SIZE * (n - 1) < size ≤ CHUNK_SIZE * n
  ∧ 0 ≤ n
  ∧ (1 ≤ n ↔ 0 < size)
  ∧ ∀ id uploaded w,
      run [EvStart; EvInitOk id uploaded] (new size) = Some w →
      totalChunks w = n ∧ length (chunks w) = Z.to_nat n.
Proof.
  intros Hsize n. subst n. simpl.
  pose proof (totalChunks_of_bounds size) as Hb.
  assert (Hc : CHUNK_SIZE = 5242880) by reflexivity.
  split; [lia|]. split; [lia|]. split; [lia|].
  intros id uploaded w Hrun. simpl in Hrun. injection Hrun as <-.
  rewrite processQueue_totalChunks, processQueue_length. simpl.
  split; [done|]. apply plan_length.
Qed.

(** The statement above at a file of 12 MiB: three chunks. *)
Lemma totalChunks_is_ceiling_witness :
  0 ≤ 12582912 ∧
  let n := totalChunks (new 12582912) in
  CHUNK_SIZE * (n - 1) < 12582912 ≤ CHUNK_SIZE * n
  ∧ 0 ≤ n
  ∧ (1 ≤ n ↔ 0 < 12582912)
  ∧ ∀ id uploaded w,
      run [EvStart; EvInitOk id uploaded] (new 12582912) = Some w →
      totalChunks w = n ∧ length (chunks w) = Z.to_nat n.
Proof. split; [lia|]. apply (totalChunks_is_ceiling 12582912). lia. Defined.

(** C7 as stated fails at the zero-byte file: no chunk is planned. *)
Lemma totalChunks_zero_byte_file :
  totalChunks (new 0) = 0 ∧ ¬ (1 ≤ totalChunks (new 0)).
Proof. split; [reflexivity | vm_compute; congruence]. Qed.



Lemma take_put_length i l rest :
  take_put i l = Some rest → length l = S (length rest).
Proof.
  revert rest. induction l as [|j l IH]; intros rest; simpl; [done|].
  case_decide.
  - by intros [= <-].
  - destruct (take_put i l) as [rest'|]; [|done].
    intros [= <-]. simpl. f_equal. by apply IH.
Qed.




(** C1, evaluated: with five chunks, after the PUT of chunk 0 fails,
    its immediate resend succeeds and its backoff timer then fires while
    chunks 1 and 2 are still on the wire, four PUTs are in flight and
    four chunks are UPLOADING, while [activeUploads] reads 3. *)
Theorem concurrency_bound_exceeded :
  (λ w, (in_flight w, uploading_count w, activeUploads w))
    <$> run Scenarios.late_timer (new Scenarios.five_chunks)
  = Some (4%nat, 4%nat, 3)
  ∧ MAX_CONCURRENCY = 3.
Proof. split; vm_compute; reflexivity. Qed.

(** C2, evaluated: the PUT of chunk 0 fails at time 0 (first attempt);
    in the same turn chunk 0 is sent again - the log holds two
    dispatches of chunk 0 at time 0 - while its backoff timer, due at
    [2^1 * 1000] ms, has not fired. *)
Theorem retry_dispatched_before_backoff :
  (λ w, (cstatus <$> chunks w !! 0%nat, attempts <$> chunks w !! 0%nat,
         puts w, timers w, clock w, dispatched w))
    <$> run Scenarios.first_failure (new Scenarios.five_chunks)
  = Some (Some ChunkSt.UPLOADING, Some 1, [1; 2; 0]%nat, [(0%nat, 2000)], 0,
          [(0%nat, 0); (1%nat, 0); (2%nat, 0); (0%nat, 0)]).
Proof. vm_compute. reflexivity. Qed.

End ClientFacts.

(* ===================================================================== *)
(** * Facts about the server                                              *)
(* ===================================================================== *)

Module ServerFacts.
Import Server.

(** ** Blobs *)




(** ** The streamed hash *)

(** The digests of the empty message and of "abc" (FIPS 180-4 examples),
    and of the 56-byte message that needs a second padding block. *)
Example sha256_empty :
  Sha256.hex (Sha256.sha256 [])
  = "e3b0c44298fc1c149afbf4c8996fb92427ae41e4649b934ca495991b7852b855".
Proof. vm_compute. reflexivity. Qed.

Example sha256_abc :
  Sha256.hex (Sha256.sha256 (Sha256.bytes_of_string "abc"))
  = "ba7816bf8f01cfea414140de5dae2223b00361a396177a9cb410ff61f20015ad".
Proof. vm_compute. reflexivity. Qed.

Example sha256_two_blocks :
  Sha256.hex (Sha256.sha256 (Sha256.bytes_of_string
    "abcdbcdecdefdefgefghfghighijhijkijkljklmklmnlmnomnopnopq"))
  = "248d6a61d20638b8e5c026930c3e6039a33ce45964ff2167f6ecedd419db06c1".
Proof. vm_compute. reflexivity. Qed.

(** [parseInt] on a few header values. *)
Example parseInt_samples :
  parseInt "5242880" = Some 5242880
  ∧ parseInt " 42" = Some 42
  ∧ parseInt "0x1F" = Some 31
  ∧ parseInt "1.5" = Some 1
  ∧ parseInt "abc" = None
  ∧ parseInt EmptyString = None
  ∧ parse_offset None = None.
Proof. vm_compute. repeat split; reflexivity. Qed.

Lemma highWaterMark_pos : (0 < highWaterMark)%nat.
Proof. apply Nat.ltb_lt. vm_compute. reflexivity. Qed.

Lemma read_chunks_fold size fuel file acc :
  (0 < size)%nat → (length file ≤ fuel)%nat →
  fold_left hash_update (read_chunks size fuel file) acc = acc ++ file.
Proof.
  intros Hsize. revert file acc.
  induction fuel as [|fuel IH]; intros file acc Hlen.
  - destruct file; simpl in *; [by rewrite app_nil_r | lia].
  - destruct file as [|b file]; [simpl; by rewrite app_nil_r|].
    change (read_chunks size (S fuel) (b :: file))
      with (take size (b :: file)
              :: read_chunks size fuel (drop size (b :: file))).
    cbn [fold_left]. rewrite IH.
    + unfold hash_update. rewrite <- app_assoc. by rewrite take_drop.
    + rewrite length_drop. simpl in *. lia.
Qed.

(** Hashing the stream buffer by buffer gives the SHA-256 of the blob. *)
Lemma server_hash_whole file :
  server_hash file = Sha256.hex (Sha256.sha256 file).
Proof.
  unfold server_hash, digest_hex, createReadStream, createHash.
  by rewrite read_chunks_fold by (apply highWaterMark_pos || done).
Qed.



Lemma hex_length bs : String.length (Sha256.hex bs) = (2 * length bs)%nat.
Proof. induction bs as [|b bs IH]; [done|]. simpl in *. lia. Qed.

Lemma sha256_length msg : length (Sha256.sha256 msg) = 32%nat.
Proof.
  unfold Sha256.sha256.
  destruct (fold_left _ _ _) as [[[[[[[a b] c] d] e] f] g] h].
  reflexivity.
Qed.

Lemma server_hash_nonempty file : server_hash file ≠ EmptyString.
Proof.
  intros Heq. pose proof (hex_length (Sha256.sha256 file)) as Hl.
  rewrite server_hash_whole in Heq. rewrite Heq, sha256_length in Hl.
  discriminate.
Qed.

(** ** [uploadChunk] *)

(** The store after an accepted PUT that meets no failure. *)
Lemma uploadChunk_ok s id idx header data now off :
  parse_offset header = Some off →
  uploadChunk id idx header data IoOk now s
  = (Store (uploads s) (next_id s)
           (<[(id, idx) := ChunkRow UPLOADED now]> (chunks s))
           (<[id := write_at (default [] (blobs s !! id)) off data]> (blobs s)),
     Response 200 success_body).
Proof.
  intros Hoff. unfold uploadChunk, ensureFile. rewrite Hoff.
  destruct (blobs s !! id) as [blob|] eqn:Hblob; simpl.
  - by rewrite Hblob.
  - by rewrite lookup_insert_eq, insert_insert_eq.
Qed.





(** ** [finalizeUpload] *)

(** C3, evaluated: a finalize with a wrong client hash sets the upload
    FAILED (400); the next finalize, without client hash, finds the row
    FAILED, locks it as PROCESSING and ends with the upload COMPLETED
    (200): FAILED is left. *)
Theorem failed_upload_finalized :
  status_of 1 Scenarios.mismatched = Some Status.FAILED
  ∧ (finalize_guard 1 Scenarios.mismatched).2 = None
  ∧ status_of 1 (finalize_guard 1 Scenarios.mismatched).1
    = Some Status.PROCESSING
  ∧ status_of 1 (finalizeUpload 1 None Scenarios.plain_file
                   Scenarios.mismatched).1
    = Some Status.COMPLETED
  ∧ code (finalizeUpload 1 None Scenarios.plain_file Scenarios.mismatched).2
    = 200.
Proof. vm_compute. repeat split; reflexivity. Qed.

(** C4, as the code has it: a finalize on a COMPLETED upload is answered
    200 with [{status: "COMPLETED", message: "Already completed"}] - a
    body without [hash] property - and leaves the store (Upload rows,
    Chunk rows, blobs) as it is. *)
Theorem finalize_completed_again s id u clientHash env :
  uploads s !! id = Some u →
  ustatus u = Status.COMPLETED →
  finalizeUpload id clientHash env s
  = (s, Response 200 already_completed_body)
  ∧ get_field "hash" already_completed_body = None.
Proof.
  intros Hu Hst. split; [|reflexivity].
  unfold finalizeUpload, finalize_guard. rewrite Hu.
  by rewrite decide_True.
Qed.

Lemma finalize_completed_again_witness :
  status_of 1 Scenarios.completed = Some Status.COMPLETED
  ∧ finalizeUpload 1 None Scenarios.plain_file Scenarios.completed
    = (Scenarios.completed, Response 200 already_completed_body).
Proof.
  split; [vm_compute; reflexivity|].
  refine (proj1 (finalize_completed_again Scenarios.completed 1
            (Upload "f.bin" 4 1 Status.COMPLETED (Some Scenarios.AAAA_hash) 0)
            None Scenarios.plain_file _ _)).
  - vm_compute. reflexivity.
  - reflexivity.
Defined.

(** C4 as stated fails: the upload is COMPLETED and stores the hash of
    "AAAA", yet the answer to a further finalize carries no hash. *)
Lemma finalize_completed_again_no_hash :
  (final_hash <$> uploads Scenarios.completed !! 1%nat)
  = Some (Some Scenarios.AAAA_hash)
  ∧ status_of 1 Scenarios.completed = Some Status.COMPLETED
  ∧ get_field "hash"
      (body (finalizeUpload 1 None Scenarios.plain_file Scenarios.completed).2)
    = None
  ∧ get_field "hash"
      (body (finalizeUpload 1 None Scenarios.plain_file Scenarios.completed).2)
    ≠ Some (JStr Scenarios.AAAA_hash).
Proof. vm_compute. repeat split; try reflexivity. discriminate. Qed.





(** The outcome of a finalize that passes the status check and streams
    the blob without error. *)
Lemma finalizeUpload_hashes s id u file clientHash z :
  uploads s !! id = Some u →
  ustatus u ≠ Status.COMPLETED →
  ustatus u ≠ Status.PROCESSING →
  blobs s !! id = Some file →
  finalizeUpload id clientHash (FinEnv false z) s
  = finalize_stream id clientHash (FinEnv false z)
      (update_status id Status.PROCESSING s).
Proof.
  intros Hu Hc Hp Hfile. unfold finalizeUpload, finalize_guard.
  rewrite Hu. by rewrite !decide_False.
Qed.




(** The guard [clientHash && ...] takes the empty string as no client
    hash at all. *)
Lemma finalizeUpload_empty_hash s id env :
  finalizeUpload id (Some (JStr EmptyString)) env s
  = finalizeUpload id None env s.
Proof.
  unfold finalizeUpload. by destruct (finalize_guard id s) as [s' [r|]].
Qed.

(** C10: a finalize whose [clientHash] is the empty string does what the
    finalize without [clientHash] does - same store, same answer, in
    every environment - and, when it passes the status check and streams
    the blob, ends with the upload COMPLETED under the server hash,
    although that hash is not the empty string. *)
Theorem empty_client_hash_skipped s id u file z :
  uploads s !! id = Some u →
  ustatus u ≠ Status.COMPLETED →
  ustatus u ≠ Status.PROCESSING →
  blobs s !! id = Some file →
  let out := finalizeUpload id (Some (JStr EmptyString)) (FinEnv false z) s in
  (∀ env, finalizeUpload id (Some (JStr EmptyString)) env s
          = finalizeUpload id None env s)
  ∧ server_hash file ≠ EmptyString
  ∧ status_of id out.1 = Some Status.COMPLETED
  ∧ (final_hash <$> uploads out.1 !! id) = Some (Some (server_hash file))
  ∧ code out.2 = 200.
Proof.
  intros Hu Hc Hp Hfile out. subst out.
  split; [intros env; apply finalizeUpload_empty_hash|].
  split; [apply server_hash_nonempty|].
  rewrite (finalizeUpload_hashes _ _ _ _ _ _ Hu Hc Hp Hfile).
  unfold finalize_stream. simpl. rewrite Hfile.
  unfold status_of, finish. destruct z; simpl;
    rewrite !lookup_alter_eq, Hu; done.
Qed.

Lemma empty_client_hash_skipped_witness :
  uploads Scenarios.uploaded !! 1%nat
  = Some (Upload "f.bin" 4 1 Status.UPLOADING None 0)
  ∧ blobs Scenarios.uploaded !! 1%nat = Some Scenarios.AAAA
  ∧ finalizeUpload 1 (Some (JStr EmptyString)) Scenarios.plain_file
      Scenarios.uploaded
    = finalizeUpload 1 None Scenarios.plain_file Scenarios.uploaded
  ∧ status_of 1 (finalizeUpload 1 (Some (JStr EmptyString))
                   (FinEnv false ZipOpenError) Scenarios.uploaded).1
    = Some Status.COMPLETED.
Proof.
  assert (Hu : uploads Scenarios.uploaded !! 1%nat
               = Some (Upload "f.bin" 4 1 Status.UPLOADING None 0))
    by (vm_compute; reflexivity).
  assert (Hf : blobs Scenarios.uploaded !! 1%nat = Some Scenarios.AAAA)
    by (vm_compute; reflexivity).
  split; [exact Hu|]. split; [exact Hf|].
  pose proof (empty_client_hash_skipped Scenarios.uploaded 1 _ Scenarios.AAAA
                ZipOpenError Hu ltac:(discriminate) ltac:(discriminate) Hf)
    as H.
  cbv zeta in H. destruct H as (Heq & _ & Hst & _).
  split; [exact (Heq Scenarios.plain_file) | exact Hst].
Defined.

End ServerFacts.

(* ===================================================================== *)
(** * Further facts about the server                                      *)
(* ===================================================================== *)

Module ServerProps.
Import Server.

(** ** Positional writes *)

(** The byte found at each position after a write of at least one byte. *)
Lemma write_at_lookup blob pos data (k : nat) :
  data ≠ [] →
  write_at blob pos data !! k
  = if decide (k < Z.to_nat pos)%nat then Some (default Byte.x00 (blob !! k))
    else if decide (k < Z.to_nat pos + length data)%nat
         then data !! (k - Z.to_nat pos)%nat
         else blob !! k.
Proof.
  intros Hne. unfold write_at. destruct data as [|b data]; [done|].
  set (d := b :: data). set (p := Z.to_nat pos).
  destruct (decide (k < p)%nat) as [Hk|Hk].
  - destruct (decide (k < length blob)%nat) as [Hb|Hb].
    + rewrite lookup_app_l by (rewrite length_take; lia).
      rewrite lookup_take_lt by lia.
      destruct (lookup_lt_is_Some_2 blob k Hb) as [x ->]. done.
    + rewrite lookup_app_r by (rewrite length_take; lia).
      rewrite length_take.
      rewrite lookup_app_l by (rewrite length_replicate; lia).
      rewrite (lookup_ge_None_2 blob k) by lia. simpl.
      apply lookup_replicate_2. lia.
  - rewrite lookup_app_r by (rewrite length_take; lia).
    rewrite lookup_app_r by (rewrite length_take, length_replicate; lia).
    rewrite length_take, length_replicate.
    replace (k - p `min` length blob - (p - length blob))%nat
      with (k - p)%nat by lia.
    destruct (decide (k < p + length d)%nat) as [Hd|Hd].
    + by rewrite lookup_app_l by lia.
    + rewrite lookup_app_r by lia. rewrite lookup_drop. f_equal. lia.
Qed.

Lemma write_at_length blob pos data :
  data ≠ [] →
  length (write_at blob pos data)
  = (length blob `max` (Z.to_nat pos + length data))%nat.
Proof.
  intros Hne. unfold write_at. destruct data as [|b data]; [done|].
  rewrite !length_app, length_take, length_replicate, length_drop. lia.
Qed.





End ServerProps.

(* ===================================================================== *)
(** * The client's requests, served                                       *)
(* ===================================================================== *)

Module WireProps.
Import Server ServerProps.
Import Client ClientFacts ServerFacts.

(** ** The offset header *)

Lemma digit_value_char d :
  (d < 10)%N → digit_value 10 (pretty_N_char d) = Some (Z.of_N d).
Proof.
  intros Hd.
  assert (d = 0 ∨ d = 1 ∨ d = 2 ∨ d = 3 ∨ d = 4 ∨ d = 5 ∨ d = 6 ∨ d = 7
          ∨ d = 8 ∨ d = 9)%N as Hc by lia.
  repeat destruct Hc as [->|Hc]; try subst d; reflexivity.
Qed.

Lemma parse_digits_pretty x s :
  parse_digits 10 (pretty_N_go x s) None
  = parse_digits 10 s (if decide (x = 0)%N then None else Some (Z.of_N x)).
Proof.
  revert s. induction (N.lt_wf_0 x) as [x _ IH]; intros s.
  destruct (decide (x = 0)%N) as [->|Hx]; [by rewrite pretty_N_go_0|].
  rewrite pretty_N_go_step by lia.
  rewrite IH by (apply N.div_lt; lia).
  cbn [parse_digits].
  rewrite digit_value_char by (apply N.mod_lt; lia).
  f_equal. f_equal.
  pose proof (N.div_mod x 10 ltac:(lia)) as Hdm.
  destruct (decide (x `div` 10 = 0)%N) as [Hz|Hz]; simpl.
  - rewrite Hz in Hdm. lia.
  - lia.
Qed.

Lemma pretty_N_go_head x s :
  (0 < x)%N →
  ∃ d rest, (1 ≤ d ≤ 9)%N ∧ pretty_N_go x s = String (pretty_N_char d) rest.
Proof.
  revert s. induction (N.lt_wf_0 x) as [x _ IH]; intros s Hx.
  rewrite pretty_N_go_step by done.
  destruct (decide (x `div` 10 = 0)%N) as [Hz|Hz].
  - rewrite Hz, pretty_N_go_0. exists x, s.
    pose proof (N.div_mod x 10 ltac:(lia)) as Hdm.
    pose proof (N.mod_lt x 10 ltac:(lia)).
    rewrite Hz in Hdm. split; [lia|]. f_equal. f_equal. lia.
  - apply IH; [apply N.div_lt; lia | by apply N.neq_0_lt_0].
Qed.

Lemma parseInt_digit_head d rest :
  (1 ≤ d ≤ 9)%N →
  parseInt (String (pretty_N_char d) rest)
  = Z.mul 1 <$> parse_digits 10 (String (pretty_N_char d) rest) None.
Proof.
  intros Hd.
  assert (d = 1 ∨ d = 2 ∨ d = 3 ∨ d = 4 ∨ d = 5 ∨ d = 6 ∨ d = 7
          ∨ d = 8 ∨ d = 9)%N as Hc by lia.
  repeat destruct Hc as [->|Hc]; try subst d; reflexivity.
Qed.

(** X3. The offset the client writes in the header is the offset the
    server reads: [parseInt] of the decimal form of a non-negative
    integer is that integer, so such a PUT is never answered 400. *)
Theorem offset_header_round_trip (n : Z) :
  0 ≤ n → parse_offset (Some (Wire.decimal n)) = Some n.
Proof.
  intros Hn. unfold parse_offset, Wire.decimal. simpl.
  unfold pretty, pretty_N.
  destruct (decide (Z.to_N n = 0)%N) as [Hz|Hz].
  - replace n with 0 by lia. reflexivity.
  - destruct (pretty_N_go_head (Z.to_N n) "" ltac:(lia)) as (d & rest & Hd & Heq).
    rewrite Heq, parseInt_digit_head by done. rewrite <- Heq.
    rewrite parse_digits_pretty. rewrite decide_False by done.
    simpl. f_equal. lia.
Qed.

Lemma offset_header_round_trip_witness :
  0 ≤ 5242880 ∧ parse_offset (Some (Wire.decimal 5242880)) = Some 5242880.
Proof. split; [lia|]. apply (offset_header_round_trip 5242880). lia. Defined.

(** ** Assembly *)

Lemma slice_length f s e :
  0 ≤ s → s ≤ e → e ≤ Z.of_nat (length f) →
  length (Wire.slice f s e) = Z.to_nat (e - s).
Proof.
  intros Hs Hse He. unfold Wire.slice. rewrite length_take, length_drop. lia.
Qed.

Lemma slice_lookup f s e (j : nat) :
  0 ≤ s → (j < Z.to_nat (e - s))%nat →
  Wire.slice f s e !! j = f !! (Z.to_nat s + j)%nat.
Proof.
  intros Hs Hj. unfold Wire.slice.
  rewrite lookup_take_lt by done. by rewrite lookup_drop.
Qed.

Lemma assemble_lookup f cs : ∀ b (k : nat),
  (length b ≤ length f)%nat →
  Forall (Wire.in_file f) cs →
  (∃ c, c ∈ cs ∧ start c ≤ Z.of_nat k < end_ c)
  ∨ ((k < length b)%nat ∧ b !! k = f !! k) →
  (length (Wire.assemble f b cs) ≤ length f)%nat
  ∧ (k < length (Wire.assemble f b cs))%nat
  ∧ Wire.assemble f b cs !! k = f !! k.
Proof.
  induction cs as [|c cs IH]; intros b k Hb Hin Hk.
  - destruct Hk as [(c & Hc & _)|[Hk Heq]]; [by apply elem_of_nil in Hc|].
    done.
  - apply Forall_cons in Hin as [(Hs & Hse & He) Hin].
    unfold Wire.assemble. cbn [foldl].
    set (d := Wire.slice f (start c) (end_ c)).
    set (b' := write_at b (start c) d).
    assert (Hd : length d = Z.to_nat (end_ c - start c))
      by (by apply slice_length).
    assert (Hb' : (length b' ≤ length f)%nat).
    { subst b'. destruct (decide (d = [])) as [->|Hne]; [done|].
      rewrite write_at_length by done. lia. }
    assert (Hstep : (Z.of_nat k < end_ c ∧ start c ≤ Z.of_nat k)
                    ∨ ((k < length b)%nat ∧ b !! k = f !! k) →
                    (k < length b')%nat ∧ b' !! k = f !! k).
    { intros Hcase. subst b'.
      destruct (decide (d = [])) as [Hnil|Hne].
      { rewrite Hnil in *. simpl in Hd.
        destruct Hcase as [?|?]; [lia|done]. }
      rewrite write_at_length, write_at_lookup by done.
      destruct Hcase as [[Hlt Hge]|[Hlt Heq]].
      - split; [lia|]. repeat case_decide; try lia.
        subst d. rewrite slice_lookup by lia. f_equal. lia.
      - split; [lia|].
        destruct (lookup_lt_is_Some_2 b k Hlt) as [x Hx].
        repeat case_decide; try lia.
        + rewrite Hx. simpl. by rewrite <- Heq.
        + subst d. rewrite slice_lookup by lia. f_equal. lia.
        + done. }
    apply (IH b' k Hb' Hin).
    destruct Hk as [(c' & Hc' & Hrange)|Hold].
    + apply elem_of_cons in Hc' as [->|Hc'].
      * right. apply Hstep. left. lia.
      * left. eauto.
    + right. apply Hstep. by right.
Qed.

Lemma assemble_length f cs : ∀ b,
  (length b ≤ length f)%nat → Forall (Wire.in_file f) cs →
  (length (Wire.assemble f b cs) ≤ length f)%nat.
Proof.
  induction cs as [|c cs IH]; intros b Hb Hin; [done|].
  apply Forall_cons in Hin as [(Hs & Hse & He) Hin].
  unfold Wire.assemble. cbn [foldl]. apply IH; [|done].
  set (d := Wire.slice f (start c) (end_ c)).
  destruct (decide (d = [])) as [->|Hne]; [done|].
  rewrite write_at_length by done.
  subst d. rewrite slice_length by done. lia.
Qed.

Lemma assemble_complete f b cs :
  (length b ≤ length f)%nat → Forall (Wire.in_file f) cs →
  (∀ k : nat, (k < length f)%nat →
     ∃ c, c ∈ cs ∧ start c ≤ Z.of_nat k < end_ c) →
  Wire.assemble f b cs = f.
Proof.
  intros Hb Hin Hcover. apply list_eq. intros k.
  destruct (decide (k < length f)%nat) as [Hk|Hk].
  - apply assemble_lookup; auto.
  - pose proof (assemble_length f cs b Hb Hin).
    rewrite !lookup_ge_None_2 by lia. done.
Qed.

(** ** The chunk plan *)

Lemma plan_lookup size n U (i : nat) c :
  plan size n U !! i = Some c
  ↔ (i < Z.to_nat n)%nat ∧ c = make_chunk size U i.
Proof.
  unfold plan. rewrite list_lookup_fmap. split.
  - intros H. destruct (seq 0 (Z.to_nat n) !! i) as [j|] eqn:Hj; [|done].
    apply lookup_seq in Hj as [-> Hlt]. simpl in H. by injection H as <-.
  - intros [Hlt ->]. by rewrite (lookup_seq_lt _ _ _ Hlt).
Qed.

Lemma planned_bytes_app cs c :
  Wire.planned_bytes (cs ++ [c]) = Wire.planned_bytes cs + (end_ c - start c).
Proof.
  induction cs as [|c' cs IH]; simpl; [lia|].
  unfold Wire.planned_bytes in *. simpl. rewrite IH. lia.
Qed.

Lemma planned_bytes_prefix size U (m : nat) :
  0 ≤ size →
  CHUNK_SIZE * (Z.of_nat m - 1) < size ∨ m = 0%nat →
  Wire.planned_bytes (make_chunk size U <$> seq 0 m)
  = Z.min (Z.of_nat m * CHUNK_SIZE) size.
Proof.
  intros Hsize. assert (Hc : CHUNK_SIZE = 5242880) by reflexivity.
  induction m as [|m IH]; intros Hm.
  - simpl. lia.
  - rewrite seq_S, fmap_app.
    change (make_chunk size U <$> [(0 + m)%nat]) with [make_chunk size U m].
    rewrite planned_bytes_app. simpl.
    rewrite IH by lia. lia.
Qed.

(** X4. The chunk plan tiles the file: chunk [i] starts at
    [i * CHUNK_SIZE], is not empty and at most [CHUNK_SIZE] long, each
    chunk starts where the previous one ends, the last one ends at the
    end of the file, every byte of the file lies in a chunk, and the
    chunk sizes add up to the file size.  Chunks the server reported are
    SUCCESS, the others PENDING, all with no attempt made. *)
Theorem plan_tiles_file size U :
  0 ≤ size →
  let n := totalChunks_of size in
  let cs := plan size n U in
  (∀ (i : nat) c, cs !! i = Some c →
     index c = i ∧ start c = Z.of_nat i * CHUNK_SIZE
     ∧ start c < end_ c ≤ size ∧ end_ c - start c ≤ CHUNK_SIZE
     ∧ attempts c = 0
     ∧ (cstatus c = if decide (i ∈ U) then ChunkSt.SUCCESS else ChunkSt.PENDING))
  ∧ (∀ (i : nat) c c', cs !! i = Some c → cs !! S i = Some c' →
       start c' = end_ c)
  ∧ (∀ c, last cs = Some c → end_ c = size)
  ∧ (∀ k, 0 ≤ k < size → ∃ c, c ∈ cs ∧ start c ≤ k < end_ c)
  ∧ Wire.planned_bytes cs = size.
Proof.
  intros Hsize n cs.
  pose proof (totalChunks_of_bounds size) as Hb. fold n in Hb.
  assert (Hc : CHUNK_SIZE = 5242880) by reflexivity.
  split; [|split; [|split; [|split]]].
  - intros i c Hi. apply plan_lookup in Hi as [Hlt ->]. simpl.
    repeat split; try lia. 
  - intros i c c' Hi Hi'.
    apply plan_lookup in Hi as [Hlt ->]. apply plan_lookup in Hi' as [Hlt' ->].
    simpl. lia.
  - intros c Hlast. rewrite last_lookup in Hlast.
    apply plan_lookup in Hlast as [Hlt ->]. simpl.
    unfold cs in *. rewrite plan_length in *. lia.
  - intros k Hk. exists (make_chunk size U (Z.to_nat (k / CHUNK_SIZE))).
    assert (0 ≤ k / CHUNK_SIZE) by (apply Z.div_pos; lia).
    assert (k / CHUNK_SIZE < n) by (apply Z.div_lt_upper_bound; lia).
    pose proof (Z.div_mod k CHUNK_SIZE ltac:(lia)).
    pose proof (Z.mod_pos_bound k CHUNK_SIZE ltac:(lia)).
    split.
    + apply list_elem_of_lookup. exists (Z.to_nat (k / CHUNK_SIZE)).
      apply plan_lookup. split; [lia|done].
    + simpl. lia.
  - unfold cs, plan. rewrite planned_bytes_prefix by lia. lia.
Qed.

Lemma plan_tiles_file_witness :
  0 ≤ 12582912
  ∧ Wire.planned_bytes (plan 12582912 (totalChunks_of 12582912) [1%nat])
    = 12582912.
Proof.
  split; [lia|].
  pose proof (plan_tiles_file 12582912 [1%nat] ltac:(lia)) as H.
  cbv zeta in H. destruct H as (_ & _ & _ & _ & Hsum). exact Hsum.
Defined.

(** ** Serving the client's PUTs *)

Lemma record_chunks_lookup id now cs : ∀ m id' k,
  is_Some (Wire.record_chunks id now m cs !! (id', k))
  ↔ is_Some (m !! (id', k))
    ∨ (id' = id ∧ ∃ c, c ∈ cs ∧ k = Z.of_nat (index c)).
Proof.
  induction cs as [|c cs IH]; intros m id' k.
  - simpl. split; [by left|]. intros [?|(_ & c & Hc & _)]; [done|].
    by apply elem_of_nil in Hc.
  - unfold Wire.record_chunks in *. cbn [foldl]. rewrite IH.
    rewrite lookup_insert_is_Some. split.
    + intros [[[= <- <-]|[_ ?]]|(-> & c' & Hc' & ->)].
      * right. split; [done|]. exists c. split; [left|done].
      * by left.
      * right. split; [done|]. exists c'. split; [by right|done].
    + intros [?|(-> & c' & Hc' & ->)].
      * destruct (decide ((id, Z.of_nat (index c)) = (id', k))); eauto.
      * apply elem_of_cons in Hc' as [->|Hc']; [by left; left|].
        right. split; [done|]. eauto.
Qed.

Lemma serve_puts now id f cs : ∀ s b0,
  Forall (λ c, 0 ≤ start c) cs →
  blobs s !! id = Some b0 →
  serve now (Wire.put_of id f <$> cs) s
  = (Store (uploads s) (next_id s) (Wire.record_chunks id now (Server.chunks s) cs)
           (<[id := Wire.assemble f b0 cs]> (blobs s)),
     replicate (length cs) (Response 200 success_body)).
Proof.
  induction cs as [|c cs IH]; intros s b0 Hpos Hb0.
  - simpl. rewrite insert_id by done. by destruct s.
  - apply Forall_cons in Hpos as [Hc Hpos].
    cbn [fmap list_fmap serve]. unfold Wire.put_of at 1. cbn [handle].
    rewrite (uploadChunk_ok _ _ _ _ _ _ (start c))
      by (by apply offset_header_round_trip).
    rewrite Hb0. cbn [default].
    erewrite IH; [|done|apply lookup_insert_eq].
    cbn. by rewrite insert_insert_eq.
Qed.

Lemma requests_of_plan id f (p : list chunk) (reqs : list request) :
  (∀ r, r ∈ reqs → r ∈ Wire.put_of id f <$> p) →
  ∃ cs, reqs = Wire.put_of id f <$> cs ∧ ∀ c, c ∈ cs → c ∈ p.
Proof.
  induction reqs as [|r reqs IH]; intros Hsub.
  - exists []. split; [done|]. intros c Hc. by apply elem_of_nil in Hc.
  - destruct IH as (cs & -> & Hcs).
    { intros r' Hr'. apply Hsub. by right. }
    destruct (proj1 (list_elem_of_fmap _ _ _) (Hsub r ltac:(left)))
      as (c & -> & Hc).
    exists (c :: cs). split; [done|].
    intros c' Hc'. apply elem_of_cons in Hc' as [->|Hc']; auto.
Qed.

Lemma plan_elem_index size n U c c' :
  c ∈ plan size n U → c' ∈ plan size n U → index c = index c' → c = c'.
Proof.
  intros Hc Hc' Hi.
  apply list_elem_of_lookup in Hc as [i Hc].
  apply list_elem_of_lookup in Hc' as [i' Hc'].
  apply plan_lookup in Hc as [_ ->]. apply plan_lookup in Hc' as [_ ->].
  simpl in Hi. by subst.
Qed.

(** X5. Out-of-order assembly: when the PUTs of the plan of a file are
    served - in any order, some of them several times - on an upload
    whose blob is not longer than the file, each is answered 200, the
    blob becomes exactly the file, there is a Chunk row for every index
    of the plan, and a finalize without client hash then completes the
    upload with the SHA-256 of the file. *)
Theorem chunks_assemble_in_any_order f id s u b0 (reqs : list request) now z :
  let size := Z.of_nat (length f) in
  let p := plan size (totalChunks_of size) [] in
  uploads s !! id = Some u →
  ustatus u ≠ Status.COMPLETED →
  ustatus u ≠ Status.PROCESSING →
  blobs s !! id = Some b0 →
  (length b0 ≤ length f)%nat →
  (∀ r, r ∈ reqs ↔ r ∈ Wire.put_of id f <$> p) →
  let sr := serve now reqs s in
  let out := finalizeUpload id None (FinEnv false z) sr.1 in
  Forall (λ r, r = Response 200 success_body) sr.2
  ∧ blobs sr.1 !! id = Some f
  ∧ uploads sr.1 = uploads s
  ∧ (∀ k, is_Some (Server.chunks sr.1 !! (id, k))
          ↔ 0 ≤ k < totalChunks_of size
            ∨ is_Some (Server.chunks s !! (id, k)))
  ∧ status_of id out.1 = Some Status.COMPLETED
  ∧ (final_hash <$> uploads out.1 !! id)
    = Some (Some (Sha256.hex (Sha256.sha256 f)))
  ∧ get_field "hash" (body out.2) = Some (JStr (Sha256.hex (Sha256.sha256 f))).
Proof.
  intros size p Hu Hc Hp Hb0 Hlen Hreqs sr out.
  assert (Hsize : 0 ≤ size) by (unfold size; lia).
  destruct (plan_tiles_file size [] Hsize) as (Hgeom & _ & _ & Hcover & _).
  fold p in Hgeom, Hcover.
  destruct (requests_of_plan id f p reqs) as (cs & -> & Hcs).
  { intros r Hr. by apply Hreqs. }
  assert (Hall : ∀ c, c ∈ p → c ∈ cs).
  { intros c Hc'.
    assert (Hin : Wire.put_of id f c ∈ Wire.put_of id f <$> cs).
    { apply Hreqs. by apply list_elem_of_fmap_2. }
    apply list_elem_of_fmap in Hin as (c' & Heq & Hc'').
    assert (index c = index c') by (injection Heq; lia).
    by rewrite (plan_elem_index _ _ _ c c' Hc' (Hcs _ Hc'')). }
  assert (Hfile : Forall (Wire.in_file f) cs).
  { apply Forall_forall. intros c Hc'.
    apply Hcs, list_elem_of_lookup in Hc' as [i Hi].
    destruct (Hgeom i c Hi) as (_ & Hs & He & _).
    assert (HC : CHUNK_SIZE = 5242880) by reflexivity.
    unfold Wire.in_file. fold size. lia. }
  assert (Hpos : Forall (λ c, 0 ≤ start c) cs).
  { eapply Forall_impl; [exact Hfile|]. by intros c (? & _). }
  assert (Hblob : Wire.assemble f b0 cs = f).
  { apply assemble_complete; [done..|].
    intros k Hk. destruct (Hcover (Z.of_nat k)) as (c & Hc' & Hr); [lia|].
    exists c. split; [by apply Hall | done]. }
  subst sr out. rewrite (serve_puts now id f cs s b0 Hpos Hb0). cbn [fst snd].
  rewrite Hblob.
  split; [by apply Forall_replicate|].
  split; [cbn; apply lookup_insert_eq|]. split; [done|].
  split.
  { intros k. cbn. rewrite record_chunks_lookup. split.
    - intros [?|(_ & c & Hc' & ->)]; [by right|]. left.
      apply Hcs, list_elem_of_lookup in Hc' as [i Hi].
      pose proof (proj1 (plan_lookup _ _ _ _ _) Hi) as [Hlt _].
      destruct (Hgeom i c Hi) as (-> & _). lia.
    - intros [Hk|?]; [|by left]. right. split; [done|].
      exists (make_chunk size [] (Z.to_nat k)). split; [|simpl; lia].
      apply Hall, list_elem_of_lookup. exists (Z.to_nat k).
      apply plan_lookup. split; [lia|done]. }
  set (s1 := Store _ _ _ _).
  assert (Hu1 : uploads s1 !! id = Some u) by done.
  assert (Hb1 : blobs s1 !! id = Some f) by (cbn; apply lookup_insert_eq).
  rewrite (finalizeUpload_hashes _ _ _ _ _ _ Hu1 Hc Hp Hb1).
  unfold finalize_stream. cbn [read_error]. 
  replace (blobs (update_status id Status.PROCESSING s1) !! id) with (Some f)
    by done.
  rewrite server_hash_whole.
  unfold status_of, finish. destruct z; cbn;
    rewrite !lookup_alter_eq, Hu; done.
Qed.

Lemma chunks_assemble_in_any_order_witness :
  uploads Scenarios.initiated !! 1%nat
  = Some (Upload "f.bin" 16 1 Status.UPLOADING None 0)
  ∧ blobs Scenarios.initiated !! 1%nat = Some []
  ∧ blobs (serve 0
             (reverse (Wire.put_of 1 Scenarios.AAAA
                         <$> plan (Z.of_nat (length Scenarios.AAAA))
                               (totalChunks_of (Z.of_nat (length Scenarios.AAAA)))
                               []))
             Scenarios.initiated).1 !! 1%nat
    = Some Scenarios.AAAA.
Proof.
  assert (Hu : uploads Scenarios.initiated !! 1%nat
               = Some (Upload "f.bin" 16 1 Status.UPLOADING None 0))
    by (vm_compute; reflexivity).
  assert (Hb : blobs Scenarios.initiated !! 1%nat = Some [])
    by (vm_compute; reflexivity).
  split; [exact Hu|]. split; [exact Hb|].
  pose proof (chunks_assemble_in_any_order Scenarios.AAAA 1
                Scenarios.initiated _ []
                (reverse (Wire.put_of 1 Scenarios.AAAA
                            <$> plan (Z.of_nat (length Scenarios.AAAA))
                                  (totalChunks_of
                                     (Z.of_nat (length Scenarios.AAAA))) []))
                0 ZipOpenError Hu ltac:(discriminate) ltac:(discriminate) Hb
                ltac:(simpl; lia) ltac:(intros r; apply elem_of_reverse)) as H.
  cbv zeta in H. destruct H as (_ & Hblob & _). exact Hblob.
Defined.

End WireProps.

(* ===================================================================== *)
(** * The store along histories of requests                               *)
(* ===================================================================== *)

Module StoreProps.
Import Server ServerFacts ServerProps History.
#[local] Set Warnings "-clear-no-such-hyp".

Lemma least_None (l : list nat) : least l = None ↔ l = [].
Proof. destruct l; simpl; split; done. Qed.

Lemma least_Some (l : list nat) m :
  least l = Some m → m ∈ l ∧ ∀ x, x ∈ l → (m ≤ x)%nat.
Proof.
  revert m. induction l as [|a l IH]; intros m; [done|].
  change (least (a :: l))
    with (Some (match least l with Some j => Nat.min a j | None => a end)).
  destruct (least l) as [j|] eqn:Hj.
  - intros [= <-]. destruct (IH j eq_refl) as [Hin Hmin]. split.
    + destruct (Nat.min_spec a j) as [[_ ->]|[_ ->]]; [left|by right].
    + intros x Hx. apply elem_of_cons in Hx as [->|Hx]; [lia|].
      specialize (Hmin x Hx). lia.
  - intros [= <-]. apply least_None in Hj as ->. split; [left|].
    intros x Hx. apply elem_of_cons in Hx as [->|Hx]; [done|].
    by apply elem_of_nil in Hx.
Qed.

Lemma resumable_rows name size s (id : nat) :
  id ∈ (map_to_list (filter (λ kv, resumable name size kv.2) (uploads s))).*1
  ↔ ∃ u, uploads s !! id = Some u ∧ resumable name size u.
Proof.
  rewrite list_elem_of_fmap. split.
  - intros ([id' u] & -> & Hin). apply elem_of_map_to_list in Hin.
    apply map_lookup_filter_Some in Hin as [Hu Hr]. eauto.
  - intros (u & Hu & Hr). exists (id, u). split; [done|].
    apply elem_of_map_to_list, map_lookup_filter_Some. done.
Qed.

Lemma find_resumable_None name size s :
  find_resumable name size s = None
  ↔ ∀ id u, uploads s !! id = Some u → ¬ resumable name size u.
Proof.
  unfold find_resumable. rewrite least_None. split.
  - intros Hnil id u Hu Hr.
    assert (Hin : id ∈ (map_to_list
      (filter (λ kv, resumable name size kv.2) (uploads s))).*1)
      by (apply resumable_rows; eauto).
    rewrite Hnil in Hin. by apply elem_of_nil in Hin.
  - intros Hnone.
    destruct ((map_to_list _).*1) as [|id l] eqn:Hl; [done|].
    assert (Hin : id ∈ (map_to_list
      (filter (λ kv, resumable name size kv.2) (uploads s))).*1)
      by (rewrite Hl; left).
    apply resumable_rows in Hin as (u & Hu & Hr). by destruct (Hnone id u).
Qed.

Lemma find_resumable_Some name size s id :
  find_resumable name size s = Some id
  ↔ (∃ u, uploads s !! id = Some u ∧ resumable name size u)
    ∧ ∀ id' u', uploads s !! id' = Some u' → resumable name size u' →
                (id ≤ id')%nat.
Proof.
  unfold find_resumable. split.
  - intros Hl. apply least_Some in Hl as [Hin Hmin]. split.
    + by apply resumable_rows.
    + intros id' u' Hu' Hr'. apply Hmin, resumable_rows. eauto.
  - intros [Hex Hmin].
    destruct (least _) as [m|] eqn:Hm.
    + apply least_Some in Hm as [Hin Hle].
      apply resumable_rows in Hin as (um & Hum & Hrm).
      pose proof (Hmin m um Hum Hrm).
      assert (m ≤ id)%nat by (apply Hle, resumable_rows; done).
      f_equal. lia.
    + apply least_None in Hm.
      apply resumable_rows in Hex. rewrite Hm in Hex.
      by apply elem_of_nil in Hex.
Qed.

Lemma uploaded_indices_elem id s k :
  k ∈ uploaded_indices id s ↔ is_Some (chunks s !! (id, k)).
Proof.
  unfold uploaded_indices. rewrite list_elem_of_fmap. split.
  - intros ([[id' k'] row] & -> & Hin). apply elem_of_map_to_list in Hin.
    apply map_lookup_filter_Some in Hin as [Hrow Hid]. simpl in *. subst.
    eauto.
  - intros [row Hrow]. exists ((id, k), row). split; [done|].
    apply elem_of_map_to_list, map_lookup_filter_Some. done.
Qed.

Lemma uploaded_indices_NoDup id s : NoDup (uploaded_indices id s).
Proof.
  unfold uploaded_indices.
  apply (NoDup_fmap_2_strong _).
  - intros [[i1 k1] r1] [[i2 k2] r2] H1 H2 Heq. simpl in Heq. subst.
    apply elem_of_map_to_list, map_lookup_filter_Some in H1 as [H1 E1].
    apply elem_of_map_to_list, map_lookup_filter_Some in H2 as [H2 E2].
    simpl in *. subst. congruence.
  - apply NoDup_map_to_list.
Qed.

Lemma ensureFile_blob id s :
  is_Some (blobs (ensureFile id s) !! id)
  ∧ uploads (ensureFile id s) = uploads s
  ∧ next_id (ensureFile id s) = next_id s
  ∧ chunks (ensureFile id s) = chunks s.
Proof.
  unfold ensureFile. destruct (blobs s !! id) eqn:Hb; simpl.
  - rewrite Hb. eauto.
  - rewrite lookup_insert_eq. eauto.
Qed.

Lemma initiateUpload_target name size n now s :
  let id := target_id name size s in
  let out := initiateUpload name size n now s in
  find_resumable name size out.1 = Some id
  ∧ is_Some (blobs out.1 !! id)
  ∧ code out.2 = 200
  ∧ get_field "uploadId" (body out.2) = Some (JNum (Z.of_nat id))
  ∧ get_field "status" (body out.2) = Some (JStr "UPLOADING").
Proof.
  unfold target_id, initiateUpload.
  destruct (find_resumable name size s) as [id|] eqn:Hfind; simpl.
  - destruct (blobs s !! id) as [b|] eqn:Hb; simpl.
    + rewrite Hb. eauto 10.
    + destruct (ensureFile_blob id (delete_chunks id s)) as (Hbl & Hup & _).
      split; [|by eauto].
      apply find_resumable_Some. apply find_resumable_Some in Hfind.
      by rewrite Hup.
  - set (row := Upload name size n Status.UPLOADING None now).
    set (s' := Store _ _ _ _).
    destruct (ensureFile_blob (next_id s) s') as (Hbl & Hup & _).
    split; [|by eauto].
    apply find_resumable_Some. rewrite Hup. subst s'. simpl. split.
    + exists row. rewrite lookup_insert_eq. split; [done|].
      by repeat split.
    + intros id' u' Hu' Hr'.
      destruct (decide (id' = next_id s)) as [->|Hne]; [done|].
      rewrite lookup_insert_ne in Hu' by done.
      pose proof (proj1 (find_resumable_None name size s) Hfind id' u' Hu').
      done.
Qed.

Lemma handle_put now r s :
  is_put r →
  uploads (handle now r s).1 = uploads s
  ∧ next_id (handle now r s).1 = next_id s
  ∧ (∀ id, is_Some (blobs s !! id) → is_Some (blobs (handle now r s).1 !! id))
  ∧ (∀ id k, is_Some (chunks (handle now r s).1 !! (id, k))
             ↔ is_Some (chunks s !! (id, k)) ∨ accepted id k r).
Proof.
  destruct r as [| id0 k0 header data io | |]; try done. intros _. simpl.
  unfold uploadChunk.
  destruct (parse_offset header) as [off|] eqn:Hoff; simpl.
  2:{ repeat split; try done; [by left|].
      intros [?|H]; [done|]. destruct io; simpl in H; try done.
      destruct H as (_ & _ & [? ?]). done. }
  destruct (ensureFile_blob id0 s) as (Hbl & Hup & Hnx & Hch).
  assert (Hkeep : ∀ id, is_Some (blobs s !! id)
                        → is_Some (blobs (ensureFile id0 s) !! id)).
  { intros id Hid. unfold ensureFile. destruct (blobs s !! id0) eqn:E; [done|].
    simpl. rewrite lookup_insert_is_Some. destruct (decide (id0 = id)); eauto. }
  destruct io; simpl; rewrite ?Hup, ?Hnx, ?Hch;
    (split; [done|]); (split; [done|]); split.
  - intros id Hid. rewrite lookup_insert_is_Some.
    destruct (decide (id0 = id)); eauto.
  - intros id k. rewrite lookup_insert_is_Some. split.
    + intros [[= <- <-]|[_ ?]]; eauto.
    + intros [?|(-> & -> & _)].
      * destruct (decide ((id0, k0) = (id, k))); eauto.
      * by left.
  - done.
  - intros id k. split; [by left | by intros [?|?]].
  - intros id Hid. rewrite lookup_insert_is_Some.
    destruct (decide (id0 = id)); eauto.
  - intros id k. split; [by left | by intros [?|?]].
Qed.

Lemma replay_puts h : ∀ s,
  Forall (λ tr, is_put tr.2) h →
  uploads (replay h s) = uploads s
  ∧ next_id (replay h s) = next_id s
  ∧ (∀ id, is_Some (blobs s !! id) → is_Some (blobs (replay h s) !! id))
  ∧ (∀ id k, is_Some (chunks (replay h s) !! (id, k))
             ↔ is_Some (chunks s !! (id, k))
               ∨ Exists (λ tr, accepted id k tr.2) h).
Proof.
  induction h as [|[t r] h IH]; intros s Hputs.
  - simpl. repeat split; try done; [by left|].
    intros [?|H]; [done|]. by apply Exists_nil in H.
  - apply Forall_cons in Hputs as [Hput Hputs]. simpl in Hput.
    unfold replay in *. cbn [foldl fst snd].
    destruct (handle_put t r s Hput) as (Hu & Hn & Hb & Hc).
    destruct (IH (handle t r s).1 Hputs) as (Hu' & Hn' & Hb' & Hc').
    rewrite Hu', Hn', Hu, Hn. repeat split; try done.
    + intros id Hid. by apply Hb', Hb.
    + rewrite Hc', Hc, Exists_cons. simpl. tauto.
    + rewrite Hc', Hc, Exists_cons. simpl. tauto.
Qed.

(** X6. Resume: after [initiateUpload] has answered with an upload id,
    and whatever PUTs were served since (for any upload, accepted or
    not), a new [initiateUpload] for the same file name and size -
    whatever chunk count it announces - answers with the same id, lists
    without repetition exactly the chunk indices recorded for it (those
    listed before and those of the PUTs answered 200), and leaves the
    store as it is. *)
Theorem init_resumes_after_puts name size n now s h n2 now2 :
  Forall (λ tr, is_put tr.2) h →
  let id := target_id name size s in
  let first := initiateUpload name size n now s in
  let s2 := replay h first.1 in
  let again := initiateUpload name size n2 now2 s2 in
  get_field "uploadId" (body first.2) = Some (JNum (Z.of_nat id))
  ∧ again = (s2, Response 200 (init_body id (uploaded_indices id s2)))
  ∧ NoDup (uploaded_indices id s2)
  ∧ ∀ k, k ∈ uploaded_indices id s2
         ↔ k ∈ uploaded_indices id first.1
           ∨ Exists (λ tr, accepted id k tr.2) h.
Proof.
  intros Hputs id first s2 again.
  destruct (initiateUpload_target name size n now s)
    as (Hfind & Hblob & _ & Hid & _).
  fold id first in Hfind, Hblob, Hid.
  destruct (replay_puts h first.1 Hputs) as (Hu & _ & Hb & Hc).
  fold s2 in Hu, Hb, Hc.
  split; [done|]. split; [|split; [apply uploaded_indices_NoDup|]].
  - assert (Hfind2 : find_resumable name size s2 = Some id).
    { apply find_resumable_Some. rewrite Hu. by apply find_resumable_Some. }
    subst again. unfold initiateUpload. rewrite Hfind2.
    destruct (Hb id Hblob) as [b ->]. done.
  - intros k. rewrite !uploaded_indices_elem. apply Hc.
Qed.

(** X7. When the row to resume has lost its blob, [initiateUpload]
    deletes the Chunk rows of that upload, recreates an empty blob and
    answers with no uploaded chunk; rows and blobs of other uploads are
    untouched. *)
Theorem init_resets_when_blob_missing name size n now s id :
  find_resumable name size s = Some id →
  blobs s !! id = None →
  let out := initiateUpload name size n now s in
  out.2 = Response 200 (init_body id [])
  ∧ blobs out.1 !! id = Some []
  ∧ uploads out.1 = uploads s
  ∧ uploaded_indices id out.1 = []
  ∧ (∀ id' k, id' ≠ id → chunks out.1 !! (id', k) = chunks s !! (id', k))
  ∧ (∀ id', id' ≠ id → blobs out.1 !! id' = blobs s !! id').
Proof.
  intros Hfind Hblob. unfold initiateUpload. rewrite Hfind, Hblob. simpl.
  unfold ensureFile, delete_chunks. simpl. rewrite Hblob. simpl.
  split; [done|]. split; [apply lookup_insert_eq|]. split; [done|].
  split; [|split].
  - apply elem_of_nil_inv. intros k Hk.
    apply uploaded_indices_elem in Hk as [row Hrow]. simpl in Hrow.
    apply map_lookup_filter_Some in Hrow as [_ Hne]. done.
  - intros id' k Hne. apply option_eq. intros row.
    rewrite map_lookup_filter_Some. simpl. tauto.
  - intros id' Hne. by rewrite lookup_insert_ne.
Qed.

(** ** cleanup *)

Lemma stale_rows now s (id : nat) :
  id ∈ (map_to_list (filter (λ kv, stale now kv.2) (uploads s))).*1
  ↔ ∃ u, uploads s !! id = Some u ∧ stale now u.
Proof.
  rewrite list_elem_of_fmap. split.
  - intros ([id' u] & -> & Hin). apply elem_of_map_to_list in Hin.
    apply map_lookup_filter_Some in Hin as [Hu Hr]. eauto.
  - intros (u & Hu & Hr). exists (id, u). split; [done|].
    apply elem_of_map_to_list, map_lookup_filter_Some. done.
Qed.

Lemma cleanup_fold (rows : list nat) : ∀ s,
  let s' := foldl (λ s id, update_status id Status.FAILED
                             (set_blobs (delete id (blobs s)) s)) s rows in
  (∀ id, uploads s' !! id
         = if decide (id ∈ rows)
           then with_status Status.FAILED <$> uploads s !! id
           else uploads s !! id)
  ∧ (∀ id, blobs s' !! id = if decide (id ∈ rows) then None else blobs s !! id)
  ∧ chunks s' = chunks s ∧ next_id s' = next_id s.
Proof.
  induction rows as [|a rows IH]; intros s.
  - simpl. repeat split; intros; by rewrite decide_False by apply not_elem_of_nil.
  - cbn [foldl]. 
    destruct (IH (update_status a Status.FAILED
                    (set_blobs (delete a (blobs s)) s))) as (Hu & Hb & Hc & Hn).
    cbv zeta. split; [|split; [|split]].
    + intros id. rewrite Hu. simpl.
      destruct (decide (id = a)) as [->|Hne].
      * rewrite lookup_alter_eq, (decide_True (P := a ∈ a :: rows)) by left.
        case_decide; [|done]. by destruct (uploads s !! a).
      * rewrite lookup_alter_ne by done.
        destruct (decide (id ∈ rows)).
        -- by rewrite decide_True by (by right).
        -- rewrite decide_False; [done|]. rewrite elem_of_cons. tauto.
    + intros id. rewrite Hb. simpl.
      destruct (decide (id = a)) as [->|Hne].
      * rewrite lookup_delete_eq, (decide_True (P := a ∈ a :: rows)) by left.
        by case_decide.
      * rewrite lookup_delete_ne by done.
        destruct (decide (id ∈ rows)).
        -- by rewrite decide_True by (by right).
        -- rewrite decide_False; [done|]. rewrite elem_of_cons. tauto.
    + by rewrite Hc.
    + by rewrite Hn.
Qed.

(** X8. [cleanup] sets FAILED exactly the rows that are UPLOADING and
    older than a day and removes their blobs; every other row and blob,
    and all Chunk rows, are kept; it reports the number of rows it
    cleaned, and a second [cleanup] at the same time cleans nothing. *)
Theorem cleanup_effect now s :
  let out := cleanup now s in
  (∀ id u, uploads s !! id = Some u → stale now u →
     uploads out.1 !! id = Some (with_status Status.FAILED u)
     ∧ blobs out.1 !! id = None)
  ∧ (∀ id, (∀ u, uploads s !! id = Some u → ¬ stale now u) →
     uploads out.1 !! id = uploads s !! id
     ∧ blobs out.1 !! id = blobs s !! id)
  ∧ chunks out.1 = chunks s
  ∧ next_id out.1 = next_id s
  ∧ out.2 = Response 200
      (JObj [("cleaned",
              JNum (Z.of_nat (size (filter (λ kv, stale now kv.2) (uploads s)))))])
  ∧ cleanup now out.1 = (out.1, Response 200 (JObj [("cleaned", JNum 0)])).
Proof.
  unfold cleanup. cbv zeta. cbn [fst snd].
  set (rows := (map_to_list (filter (λ kv, stale now kv.2) (uploads s))).*1).
  destruct (cleanup_fold rows s) as (Hu & Hb & Hc & Hn). cbv zeta in *.
  set (s' := foldl _ s rows) in *.
  assert (Hnone : (map_to_list
            (filter (λ kv, stale now kv.2) (uploads s'))).*1 = []).
  { apply elem_of_nil_inv. intros id Hid.
    apply stale_rows in Hid as (u' & Hu' & Hst').
    rewrite Hu in Hu'. case_decide as Hin.
    - destruct (uploads s !! id); simplify_eq/=. by destruct Hst'.
    - apply Hin, stale_rows. eauto. }
  split; [|split; [|split; [|split; [|split]]]]; try done.
  - intros id u Hup Hst. rewrite Hu, Hb.
    rewrite !decide_True by (apply stale_rows; eauto). by rewrite Hup.
  - intros id Hns. rewrite Hu, Hb.
    rewrite !decide_False; [done|..];
      intros (u & Hup & Hst)%stale_rows; by apply (Hns u).
  - do 3 f_equal. unfold rows. by rewrite length_fmap, length_map_to_list.
  - rewrite Hnone. done.
Qed.

(** ** finalize: outcome table *)

Lemma finalizeUpload_rows id ch env s :
  let out := finalizeUpload id ch env s in
  next_id out.1 = next_id s
  ∧ (∀ id', id' ≠ id → uploads out.1 !! id' = uploads s !! id')
  ∧ match uploads s !! id with
    | None => uploads out.1 !! id = None
    | Some u =>
        if decide (ustatus u = Status.COMPLETED ∨ ustatus u = Status.PROCESSING)
        then uploads out.1 !! id = Some u
        else uploads out.1 !! id = Some (with_status Status.FAILED u)
             ∨ ∃ h, uploads out.1 !! id = Some (with_completed h u)
    end.
Proof.
  unfold finalizeUpload, finalize_guard, finalize_stream, finish.
  destruct (uploads s !! id) as [u|] eqn:Hu; [|done].
  destruct (decide (ustatus u = Status.COMPLETED)) as [Hc|Hc].
  { rewrite decide_True by tauto. simpl. by rewrite Hu. }
  destruct (decide (ustatus u = Status.PROCESSING)) as [Hp|Hp].
  { rewrite decide_True by tauto. simpl. by rewrite Hu. }
  rewrite decide_False by tauto. cbn [blobs update_status].
  assert (Hother : ∀ f g id', id' ≠ id →
            alter f id (alter g id (uploads s)) !! id' = uploads s !! id').
  { intros f g id' Hne. by rewrite !lookup_alter_ne. }
  destruct (blobs s !! id) as [file|]; [destruct (read_error env)|].
  2: destruct (truthy ch && _); [|destruct (zip env)].
  all: cbn; (split; [done|]); (split; [by apply Hother|]);
       rewrite !lookup_alter_eq, Hu; cbn; eauto.
Qed.


(** ** Invariants along any history *)

Lemma initiateUpload_rows name size n now s :
  let out := initiateUpload name size n now s in
  (uploads out.1 = uploads s ∧ next_id out.1 = next_id s)
  ∨ (uploads out.1
     = <[next_id s := Upload name size n Status.UPLOADING None now]> (uploads s)
     ∧ next_id out.1 = S (next_id s)).
Proof.
  unfold initiateUpload.
  destruct (find_resumable name size s) as [id|]; simpl.
  - left. destruct (blobs s !! id); simpl; [done|].
    by destruct (ensureFile_blob id (delete_chunks id s)) as (_ & -> & -> & _).
  - right. set (s' := Store _ _ _ _).
    by destruct (ensureFile_blob (next_id s) s') as (_ & -> & -> & _).
Qed.

Lemma cleanup_rows now s id :
  next_id (cleanup now s).1 = next_id s
  ∧ uploads (cleanup now s).1 !! id
    = (λ u, if decide (stale now u) then with_status Status.FAILED u else u)
        <$> uploads s !! id.
Proof.
  destruct (cleanup_effect now s) as (Hst & Hns & _ & Hn & _).
  cbv zeta in *. split; [done|].
  destruct (uploads s !! id) as [u|] eqn:Hu; cbn [fmap option_fmap option_map].
  - case_decide as Hs.
    + by destruct (Hst id u Hu Hs) as [-> _].
    + destruct (Hns id) as [-> _]; [|done]. intros u' Hu'. congruence.
  - destruct (Hns id) as [-> _]; [|done]. intros u' Hu'. congruence.
Qed.

Lemma handle_fresh_ids now r s :
  fresh_ids s → fresh_ids (handle now r s).1.
Proof.
  intros Hf id. destruct r as [name size n|id0 k0 h d io|id0 ch env|]; cbn [handle].
  - destruct (initiateUpload_rows name size n now s) as [[-> ->]|[-> ->]].
    + apply Hf.
    + rewrite lookup_insert_is_Some. intros [<-|[_ Hid]]; [lia|].
      specialize (Hf id Hid). lia.
  - destruct (handle_put now (Put id0 k0 h d io) s I) as (Hu & Hn & _).
    cbn [handle] in Hu, Hn. rewrite Hu, Hn. apply Hf.
  - destruct (finalizeUpload_rows id0 ch env s) as (Hn & Ho & Hid).
    cbv zeta in *. rewrite Hn. intros Hsome. apply Hf.
    destruct (decide (id = id0)) as [->|Hne]; [|by rewrite <- Ho].
    destruct (uploads s !! id0) as [u|]; [done|].
    rewrite Hid in Hsome. by destruct Hsome.
  - destruct (cleanup_rows now s id) as [-> ->].
    rewrite is_Some_alt. destruct (uploads s !! id) eqn:E; [|done].
    intros _. apply Hf. by rewrite E.
Qed.

Lemma handle_hash_iff_completed now r s :
  hash_iff_completed s → hash_iff_completed (handle now r s).1.
Proof.
  intros Hi id u'.
  destruct r as [name size n|id0 k0 h d io|id0 ch env|]; cbn [handle].
  - destruct (initiateUpload_rows name size n now s) as [[-> _]|[-> _]].
    + apply Hi.
    + rewrite lookup_insert_Some. intros [[_ <-]|[_ Hu]]; [|by apply (Hi id)].
      simpl. split; [by intros [? ?]|done].
  - destruct (handle_put now (Put id0 k0 h d io) s I) as (Hu & _).
    cbn [handle] in Hu. rewrite Hu. apply Hi.
  - destruct (finalizeUpload_rows id0 ch env s) as (_ & Ho & Hid).
    cbv zeta in *.
    destruct (decide (id = id0)) as [->|Hne]; [|rewrite Ho by done; apply Hi].
    destruct (uploads s !! id0) as [u|] eqn:Hu; [|by rewrite Hid].
    pose proof (Hi id0 u Hu) as Hiu.
    case_decide as Hst.
    + rewrite Hid. by intros [= <-].
    + destruct Hid as [->|[hh ->]]; intros [= <-]; simpl.
      * split; [|done]. intros Hs. apply Hiu in Hs. tauto.
      * split; eauto.
  - destruct (cleanup_rows now s id) as [_ ->].
    destruct (uploads s !! id) as [u|] eqn:Hu; [|done]. simpl.
    intros [= <-]. pose proof (Hi id u Hu) as Hiu.
    case_decide as Hs; [|done]. simpl. destruct Hs as [Hs _].
    split; [|done]. intros Hh. apply Hiu in Hh. congruence.
Qed.

Lemma handle_completed_kept now r s id u :
  fresh_ids s →
  uploads s !! id = Some u → ustatus u = Status.COMPLETED →
  uploads (handle now r s).1 !! id = Some u.
Proof.
  intros Hf Hu Hc.
  destruct r as [name size n|id0 k0 h d io|id0 ch env|]; cbn [handle].
  - destruct (initiateUpload_rows name size n now s) as [[-> _]|[-> _]];
      [done|].
    rewrite lookup_insert_ne; [done|].
    specialize (Hf id ltac:(eauto)). lia.
  - destruct (handle_put now (Put id0 k0 h d io) s I) as (Hu' & _).
    cbn [handle] in Hu'. by rewrite Hu'.
  - destruct (finalizeUpload_rows id0 ch env s) as (_ & Ho & Hid).
    cbv zeta in *.
    destruct (decide (id = id0)) as [->|Hne]; [|by rewrite Ho].
    rewrite Hu in Hid. by rewrite decide_True in Hid by tauto.
  - destruct (cleanup_rows now s id) as [_ ->]. rewrite Hu. simpl.
    rewrite decide_False; [done|]. intros [Hs _]. congruence.
Qed.

Lemma replay_app h1 h2 s : replay (h1 ++ h2) s = replay h2 (replay h1 s).
Proof. apply foldl_app. Qed.

Lemma replay_invariants h : ∀ s,
  fresh_ids s → hash_iff_completed s →
  fresh_ids (replay h s) ∧ hash_iff_completed (replay h s).
Proof.
  induction h as [|[t r] h IH]; intros s Hf Hi; [done|].
  apply IH; [by apply handle_fresh_ids | by apply handle_hash_iff_completed].
Qed.

Lemma empty_store_invariants :
  fresh_ids empty_store ∧ hash_iff_completed empty_store.
Proof.
  split.
  - intros id [u Hu]. cbn in Hu. by rewrite lookup_empty in Hu.
  - intros id u Hu. cbn in Hu. by rewrite lookup_empty in Hu.
Qed.

(** X10. In every store reached from the empty one by requests handled
    one after the other, a row has a final hash exactly when its status
    is COMPLETED. *)
Theorem final_hash_iff_completed h :
  hash_iff_completed (replay h empty_store).
Proof.
  destruct empty_store_invariants as [Hf Hi].
  by apply (replay_invariants h empty_store Hf Hi).
Qed.

(** X11. Once an upload is COMPLETED, no later request - init, PUT,
    finalize or cleanup, for any upload - changes its row: status, final
    hash and the other columns stay as they are. *)
Theorem completed_is_final h1 h2 id u :
  let s := replay h1 empty_store in
  uploads s !! id = Some u →
  ustatus u = Status.COMPLETED →
  uploads (replay h2 s) !! id = Some u.
Proof.
  intros s Hu Hc.
  assert (Hf : fresh_ids s).
  { destruct empty_store_invariants as [Hf Hi].
    by apply (replay_invariants h1 empty_store Hf Hi). }
  clearbody s. revert s Hf Hu.
  induction h2 as [|[t r] h2 IH]; intros s Hf Hu; [done|].
  apply IH; [by apply handle_fresh_ids | by apply handle_completed_kept].
Qed.



(** ** The statements above at concrete stores *)

Lemma init_resumes_after_puts_witness :
  Forall (λ tr : Z * request, is_put tr.2)
         [(1, Put 1 0 (Some "0") Scenarios.AAAA IoOk)]
  ∧ get_field "uploadId" (body (initiateUpload "f.bin" 4 1 0 empty_store).2)
    = Some (JNum (Z.of_nat (target_id "f.bin" 4 empty_store))).
Proof.
  assert (Hp : Forall (λ tr : Z * request, is_put tr.2)
                 [(1, Put 1 0 (Some "0") Scenarios.AAAA IoOk)])
    by (repeat constructor).
  split; [exact Hp|].
  pose proof (init_resumes_after_puts "f.bin" 4 1 0 empty_store _ 1 5 Hp) as H.
  cbv zeta in H. destruct H as (Hid & _). exact Hid.
Defined.

Lemma init_resets_when_blob_missing_witness :
  find_resumable "f.bin" 4 Cases.blob_lost = Some 1%nat
  ∧ blobs Cases.blob_lost !! 1%nat = None
  ∧ uploaded_indices 1 Cases.blob_lost = [0]
  ∧ uploaded_indices 1 (initiateUpload "f.bin" 4 1 7 Cases.blob_lost).1 = [].
Proof.
  assert (Hf : find_resumable "f.bin" 4 Cases.blob_lost = Some 1%nat)
    by (vm_compute; reflexivity).
  assert (Hb : blobs Cases.blob_lost !! 1%nat = None)
    by (vm_compute; reflexivity).
  split; [exact Hf|]. split; [exact Hb|].
  split; [vm_compute; reflexivity|].
  pose proof (init_resets_when_blob_missing "f.bin" 4 1 7 Cases.blob_lost 1
                Hf Hb) as H.
  cbv zeta in H. destruct H as (_ & _ & _ & Hidx & _). exact Hidx.
Defined.

Lemma completed_is_final_witness :
  uploads (replay Cases.complete_upload empty_store) !! 1%nat
  = Some (Upload "f.bin" 4 1 Status.COMPLETED (Some Scenarios.AAAA_hash) 0)
  ∧ uploads (replay Cases.late_requests
               (replay Cases.complete_upload empty_store)) !! 1%nat
    = Some (Upload "f.bin" 4 1 Status.COMPLETED (Some Scenarios.AAAA_hash) 0).
Proof.
  assert (Hu : uploads (replay Cases.complete_upload empty_store) !! 1%nat
               = Some (Upload "f.bin" 4 1 Status.COMPLETED
                         (Some Scenarios.AAAA_hash) 0))
    by (vm_compute; reflexivity).
  split; [exact Hu|].
  exact (completed_is_final Cases.complete_upload Cases.late_requests 1 _
           Hu eq_refl).
Defined.


End StoreProps.

(* ===================================================================== *)
(** * Further facts about the client engine                               *)
(* ===================================================================== *)

Module ClientProps.
Import Client ClientFacts WireProps Ledger.
#[local] Set Warnings "-clear-no-such-hyp".

(** ** The gate and the handshake *)

Lemma processQueue_idle w : status w ≠ St.UPLOADING → _processQueue w = w.
Proof. intros H. unfold _processQueue. by rewrite decide_True. Qed.

Lemma take_put_shorter i l rest :
  take_put i l = Some rest → (length rest ≤ length l)%nat.
Proof. intros H%take_put_length. lia. Qed.

Lemma step_gate e w w' :
  status w ≠ St.UPLOADING →
  is_start_or_resume e = false →
  step e w = Some w' →
  dispatched w' = dispatched w
  ∧ status w' ≠ St.UPLOADING
  ∧ (length (puts w') ≤ length (puts w))%nat.
Proof.
  intros Hst He Hstep. destruct e; try discriminate He; cbn [step] in Hstep.
  - destruct (initPending w); [done|]. injection Hstep as <-.
    by rewrite processQueue_idle.
  - destruct (initPending w); [done|]. by injection Hstep as <-.
  - destruct (take_put i (puts w)) as [rest|] eqn:Hput; [|done].
    destruct (chunks w !! i) as [c|]; [|done]. cbn in Hstep.
    injection Hstep as <-. unfold put_resolved.
    rewrite processQueue_idle by done. cbn.
    apply take_put_shorter in Hput. done.
  - destruct (take_put i (puts w)) as [rest|] eqn:Hput; [|done].
    destruct (chunks w !! i) as [c|]; [|done]. cbn in Hstep.
    injection Hstep as <-. unfold put_rejected.
    apply take_put_shorter in Hput.
    case_decide; [rewrite processQueue_idle by done|]; cbn; done.
  - destruct (take_timer i (clock w) (timers w)); [|done]. cbn in Hstep.
    injection Hstep as <-. unfold timer_fired.
    rewrite decide_False by done. done.
  - injection Hstep as <-. done.
  - destruct (finalizePending w); [done|]. by injection Hstep as <-.
  - destruct (finalizePending w); [done|]. by injection Hstep as <-.
  - case_decide; [|done]. by injection Hstep as <-.
Qed.

(** X14. The pause gate: while the engine is not UPLOADING (paused,
    failed, processing, completed), no PUT is issued whatever resolves,
    is rejected or fires - the outcomes of the requests in flight are
    still applied - until [resume()] is called. *)
Theorem no_dispatch_unless_uploading es : ∀ w w',
  status w ≠ St.UPLOADING →
  Forall (λ e, is_start_or_resume e = false) es →
  run es w = Some w' →
  dispatched w' = dispatched w
  ∧ status w' ≠ St.UPLOADING
  ∧ (in_flight w' ≤ in_flight w)%nat.
Proof.
  induction es as [|e es IH]; intros w w' Hst Hes Hrun.
  - by injection Hrun as <-.
  - apply Forall_cons in Hes as [He Hes]. cbn [run] in Hrun.
    destruct (step e w) as [w1|] eqn:Hstep; [|done]. cbn in Hrun.
    destruct (step_gate e w w1 Hst He Hstep) as (Hd & Hs & Hl).
    destruct (IH w1 w' Hs Hes Hrun) as (Hd' & Hs' & Hl').
    unfold in_flight in *. rewrite Hd', Hd. repeat split; [done|lia].
Qed.

Lemma fill_slots_take pending : ∀ w,
  0 ≤ activeUploads w ≤ MAX_CONCURRENCY →
  let sent := take (Z.to_nat (MAX_CONCURRENCY - activeUploads w)) pending in
  let w' := fill_slots pending w in
  puts w' = puts w ++ sent
  ∧ dispatched w' = dispatched w ++ ((λ i, (i, clock w)) <$> sent)
  ∧ activeUploads w' = activeUploads w + Z.of_nat (length sent)
  ∧ chunks w' = mark_uploading (chunks w) sent
  ∧ status w' = status w
  ∧ uploadedBytes w' = uploadedBytes w
  ∧ timers w' = timers w
  ∧ finalizePending w' = finalizePending w.
Proof.
  unfold MAX_CONCURRENCY.
  induction pending as [|i rest IH]; intros w Ha; cbn [fill_slots].
  - rewrite take_nil. cbn. rewrite !app_nil_r. repeat split; lia.
  - unfold MAX_CONCURRENCY.
    destruct (Z.ltb_spec (activeUploads w) 3) as [Hlt|Hge].
    + destruct (IH (_uploadChunk i w)) as (Hp & Hd & Hact & Hc & Hs & Hb & Ht & Hf).
      { cbn. lia. }
      cbv zeta in *. cbn in Hp, Hd, Hact, Hc, Hs, Hb, Ht, Hf.
      replace (Z.to_nat (3 - activeUploads w))
        with (S (Z.to_nat (3 - (activeUploads w + 1)))) by lia.
      cbn [take]. rewrite Hp, Hd, Hact, Hc, Hs, Hb, Ht, Hf.
      rewrite <- !app_assoc. cbn. repeat split; try done. lia.
    + replace (Z.to_nat (3 - activeUploads w)) with 0%nat by lia.
      cbn. rewrite !app_nil_r. repeat split; lia.
Qed.

Lemma plan_pending size U (l : list nat) :
  index <$> filter is_pending (make_chunk size U <$> l)
  = filter (λ i, i ∉ U) l.
Proof.
  induction l as [|i l IH]; [done|].
  rewrite fmap_cons, !filter_cons.
  destruct (decide (i ∈ U)) as [Hin|Hin].
  - rewrite decide_False.
    + by rewrite decide_False by tauto.
    + unfold is_pending, make_chunk. cbn. rewrite decide_True by done.
      intros [?|?]; done.
  - rewrite decide_True.
    + rewrite decide_True by done. cbn. by rewrite IH.
    + unfold is_pending, make_chunk. cbn. rewrite decide_False by done.
      by left.
Qed.

Lemma plan_uploading size U (l : list nat) :
  filter is_uploading (make_chunk size U <$> l) = [].
Proof.
  induction l as [|i l IH]; [done|].
  rewrite fmap_cons, filter_cons, IH.
  rewrite decide_False; [done|].
  unfold is_uploading, make_chunk. cbn. by case_decide.
Qed.

Lemma fill_slots_uploadId pending : ∀ w,
  uploadId (fill_slots pending w) = uploadId w.
Proof.
  induction pending as [|i rest IH]; intros w; cbn; [done|].
  destruct (activeUploads w <? MAX_CONCURRENCY); [|done]. by rewrite IH.
Qed.

(** X15. After the handshake the engine sends at once the first three
    chunks the server did not report, in index order, and marks them
    UPLOADING; it sends nothing for the chunks reported; when no chunk
    is missing - every chunk reported, or an empty file - it requests
    finalize instead. *)
Theorem handshake_dispatch size id U :
  let n := Z.to_nat (totalChunks_of size) in
  let missing := filter (λ i, i ∉ U) (seq 0 n) in
  let sent := take 3 missing in
  ∃ w, run [EvStart; EvInitOk id U] (new size) = Some w
  ∧ uploadId w = Some id
  ∧ puts w = sent
  ∧ dispatched w = (λ i, (i, 0)) <$> sent
  ∧ activeUploads w = Z.of_nat (length sent)
  ∧ chunks w = mark_uploading (plan size (totalChunks_of size) U) sent
  ∧ (missing = [] → status w = St.PROCESSING ∧ finalizePending w = 1%nat)
  ∧ (missing ≠ [] → status w = St.UPLOADING ∧ finalizePending w = 0%nat).
Proof.
  intros n missing sent.
  destruct (run [EvStart; EvInitOk id U] (new size)) as [w|] eqn:Hrun;
    [|by cbn in Hrun].
  exists w. split; [done|]. cbn in Hrun. injection Hrun as <-.
  assert (Hpend : index <$> filter is_pending (plan size (totalChunks_of size) U)
                  = missing) by apply plan_pending.
  assert (Hup : filter is_uploading (plan size (totalChunks_of size) U) = [])
    by apply plan_uploading.
  unfold _processQueue. cbn [status chunks].
  rewrite decide_False by (by intros H; apply H).
  destruct (decide _) as [[Hz _]|Hnz].
  - apply length_zero_iff_nil in Hz. rewrite Hz in Hpend.
    subst sent. rewrite <- Hpend. cbn. repeat split; try done.
    all: try (intros H; by destruct H).
  - assert (Hne : missing ≠ []).
    { intros Hnil. apply Hnz. rewrite Hup. split; [|done].
      rewrite Hnil in Hpend. apply fmap_nil_inv in Hpend. by rewrite Hpend. }
    rewrite Hpend.
    match goal with |- context [fill_slots missing ?w0] =>
      destruct (fill_slots_take missing w0)
        as (Hp & Hd & Ha & Hc & Hs & _ & _ & Hf);
      [cbn; unfold MAX_CONCURRENCY; lia|]
    end.
    cbv zeta in *. cbn in Hp, Hd, Ha, Hc, Hs, Hf.
    rewrite fill_slots_uploadId, Hp, Hd, Ha, Hc, Hs, Hf.
    repeat split; done.
Qed.

(** ** Bookkeeping on runs without a rejected PUT *)






Lemma fill_slots_status pending : ∀ w,
  status (fill_slots pending w) = status w
  ∧ initPending (fill_slots pending w) = initPending w
  ∧ timers (fill_slots pending w) = timers w.
Proof.
  induction pending as [|i rest IH]; intros w; cbn; [done|].
  destruct (activeUploads w <? MAX_CONCURRENCY); [|done].
  destruct (IH (_uploadChunk i w)) as (-> & -> & ->). done.
Qed.





















(** ** Rejected PUTs *)

Lemma fill_slots_attempts pending : ∀ w (i : nat),
  attempts <$> chunks (fill_slots pending w) !! i = attempts <$> chunks w !! i.
Proof.
  induction pending as [|j rest IH]; intros w i; cbn; [done|].
  destruct (activeUploads w <? MAX_CONCURRENCY); [|done].
  rewrite IH. cbn. rewrite list_lookup_alter. case_decide; [|done].
  subst. by destruct (chunks w !! i).
Qed.

Lemma fill_slots_errors pending : ∀ w,
  errors (fill_slots pending w) = errors w.
Proof.
  induction pending as [|j rest IH]; intros w; cbn; [done|].
  destruct (activeUploads w <? MAX_CONCURRENCY); [|done]. by rewrite IH.
Qed.

(** X17. A rejected PUT counts one more attempt of its chunk.  Up to
    [MAX_RETRIES] attempts a timer is set for [2^attempts] seconds and
    neither the engine status changes nor an error is reported; past
    them the chunk is ERROR_FATAL, the engine FAILED, [onError] is
    called once, and no timer is set and no PUT sent. *)
Theorem rejected_put_outcome w (i : nat) rest c :
  take_put i (puts w) = Some rest →
  chunks w !! i = Some c →
  ∃ w', step (EvPutErr i) w = Some w'
    ∧ attempts <$> chunks w' !! i = Some (attempts c + 1)
    ∧ (attempts c + 1 ≤ MAX_RETRIES →
         timers w' = timers w ++ [(i, clock w + 2 ^ (attempts c + 1) * 1000)]
         ∧ status w' = status w
         ∧ errors w' = errors w)
    ∧ (MAX_RETRIES < attempts c + 1 →
         status w' = St.FAILED
         ∧ errors w' = S (errors w)
         ∧ timers w' = timers w
         ∧ dispatched w' = dispatched w
         ∧ puts w' = rest
         ∧ cstatus <$> chunks w' !! i = Some ChunkSt.ERROR_FATAL).
Proof.
  intros Hput Hc. cbn [step]. rewrite Hput, Hc. cbn.
  eexists. split; [done|]. unfold put_rejected.
  destruct (decide (attempts c + 1 ≤ MAX_RETRIES)) as [Hle|Hgt].
  - set (w0 := set_activeUploads _ _).
    assert (Hi : chunks w0 !! i
                 = Some (chunk_set_status ChunkSt.ERROR_RETRY
                           (chunk_incr_attempts c))).
    { subst w0. cbn. by rewrite !list_lookup_alter_eq, Hc. }
    assert (Hq : attempts <$> chunks (_processQueue w0) !! i
                 = Some (attempts c + 1)
                 ∧ timers (_processQueue w0) = timers w0
                 ∧ status (_processQueue w0) = status w0
                 ∧ errors (_processQueue w0) = errors w0).
    { unfold _processQueue. case_decide; [by rewrite Hi|].
      case_decide as Hz.
      - destruct Hz as [Hz _]. apply length_zero_iff_nil in Hz.
        assert (Hin : chunk_set_status ChunkSt.ERROR_RETRY
                        (chunk_incr_attempts c)
                      ∈ filter is_pending (chunks w0)).
        { apply list_elem_of_filter. split; [by right|].
          apply list_elem_of_lookup. eauto. }
        rewrite Hz in Hin. by apply elem_of_nil in Hin.
      - rewrite fill_slots_attempts, fill_slots_errors, Hi.
        by destruct (fill_slots_status
          (index <$> filter is_pending (chunks w0)) w0) as (-> & _ & ->). }
    destruct Hq as (Ha & Ht & Hs & He).
    split; [done|]. split; [|lia]. intros _. by rewrite Ht, Hs, He.
  - cbn. rewrite !list_lookup_alter_eq, Hc. cbn.
    split; [done|]. split; [lia|]. intros _. done.
Qed.

(** ** The statements above at concrete runs *)

Lemma no_dispatch_unless_uploading_witness :
  status Cases.paused ≠ St.UPLOADING
  ∧ Forall (λ e, is_start_or_resume e = false) Cases.two_done
  ∧ run Cases.two_done Cases.paused = Some Cases.paused_two_done
  ∧ dispatched Cases.paused_two_done = dispatched Cases.paused.
Proof.
  assert (Hs : status Cases.paused ≠ St.UPLOADING)
    by (vm_compute; discriminate).
  assert (He : Forall (λ e, is_start_or_resume e = false) Cases.two_done)
    by (repeat constructor).
  assert (Hr : run Cases.two_done Cases.paused = Some Cases.paused_two_done)
    by (vm_compute; reflexivity).
  split; [exact Hs|]. split; [exact He|]. split; [exact Hr|].
  exact (proj1 (no_dispatch_unless_uploading Cases.two_done Cases.paused
                  Cases.paused_two_done Hs He Hr)).
Defined.


Lemma rejected_put_outcome_witness :
  take_put 1 (puts Cases.three_sent) = Some [0; 2]%nat
  ∧ chunks Cases.three_sent !! 1%nat
    = Some (Chunk 1 5242880 10485760 ChunkSt.UPLOADING 0)
  ∧ ∃ w', step (EvPutErr 1) Cases.three_sent = Some w'
          ∧ attempts <$> chunks w' !! 1%nat = Some (0 + 1).
Proof.
  assert (Ht : take_put 1 (puts Cases.three_sent) = Some [0; 2]%nat)
    by (vm_compute; reflexivity).
  assert (Hc : chunks Cases.three_sent !! 1%nat
               = Some (Chunk 1 5242880 10485760 ChunkSt.UPLOADING 0))
    by (vm_compute; reflexivity).
  split; [exact Ht|]. split; [exact Hc|].
  destruct (rejected_put_outcome Cases.three_sent 1 _ _ Ht Hc)
    as (w' & Hstep & Ha & _).
  exists w'. split; [exact Hstep | exact Ha].
Defined.

End ClientProps.
